(** * Flipped-normal detection of [fix_flipped_normals.py]

    A shallow embedding of the per-face loop of [fix_flipped_normals]
    (lines 38-63 of the script): for every polygon of the selected mesh the
    script fetches the polygon normal, averages the positions of the
    polygon's vertices, and records the polygon as flipped when the unit
    normal has a strictly negative dot product with that average.

    The script computes with the host's [MVector] and [MPoint] values, whose
    components are IEEE 754 binary64 numbers.  The arithmetic is kept behind
    a small interface ([Scalar]); its instance on Rocq's primitive floats is
    the program, and its instance on the real numbers is the same algorithm
    with exact arithmetic.

    [MVector] belongs to the host, not to the script.  Its operations are
    taken with their documented meaning, computed on doubles component by
    component: [length] is the square root of the sum of the squares,
    [normal] divides by the length, [*] on two vectors is the dot product
    with the products added from left to right, and [/] by a number is a
    plain division that yields an infinity or a NaN when the number is
    zero.  Vertex and polygon ids are natural numbers.

    Around the loop, the whole command [fix_flipped_normals] with
    [log_message] is modelled on a host that holds the nodes of the scene,
    the selection, the log and the calls of [cmds.polyNormal]; what that
    call does to the nodes is a parameter.  The recolouring pass of the
    texture preview of [camo_texture_tool.py] is modelled in [Camo]. *)

From Stdlib Require Import ZArith Floats Reals Lra Sorted.
From stdpp Require Import base tactics option list sorting strings pretty gmap.

Set Default Proof Using "Type".

(** ** The arithmetic the script uses *)

(** The operations on numbers that the loop performs, directly or through
    [MVector]: the literal [0], [+], [*], [/], [sqrt], the strict comparison
    [<], and the conversion of a length (a non-negative integer) to a
    number. *)
Class Scalar (T : Type) : Type := {
  s_zero : T;
  s_add : T -> T -> T;
  s_mul : T -> T -> T;
  s_div : T -> T -> T;
  s_sqrt : T -> T;
  s_ltb : T -> T -> bool;
  s_of_nat : nat -> T
}.

(** Python floats and the host's doubles: IEEE 754 binary64.  Division by
    zero does not trap, it yields an infinity or a NaN. *)
#[export] Instance float_Scalar : Scalar float := {
  s_zero := 0%float;
  s_add := PrimFloat.add;
  s_mul := PrimFloat.mul;
  s_div := PrimFloat.div;
  s_sqrt := PrimFloat.sqrt;
  s_ltb := PrimFloat.ltb;
  s_of_nat := fun n => PrimFloat.of_uint63 (Uint63.of_Z (Z.of_nat n))
}.

(** Exact arithmetic on the reals. *)
#[export] Instance R_Scalar : Scalar R := {
  s_zero := 0%R;
  s_add := Rplus;
  s_mul := Rmult;
  s_div := Rdiv;
  s_sqrt := R_sqrt.sqrt;
  s_ltb := fun a b => if Rlt_dec a b then true else false;
  s_of_nat := INR
}.

(** ** Host values: [MPoint], [MVector] *)

Module MPoint.
Record t (T : Type) : Type := mk { x : T; y : T; z : T; w : T }.
Arguments mk {T} _ _ _ _.
Arguments x {T} _.
Arguments y {T} _.
Arguments z {T} _.
Arguments w {T} _.
End MPoint.

Module MVector.
Record t (T : Type) : Type := mk { x : T; y : T; z : T }.
Arguments mk {T} _ _ _.
Arguments x {T} _.
Arguments y {T} _.
Arguments z {T} _.

Section Ops.
Context {T : Type} `{Scalar T}.

(** [om.MVector()] *)
Definition zero : t T := mk s_zero s_zero s_zero.

(** [u + v], as used by [center += ...] *)
Definition add (u v : t T) : t T :=
  mk (s_add (x u) (x v)) (s_add (y u) (y v)) (s_add (z u) (z v)).

(** [v / s] *)
Definition div (v : t T) (s : T) : t T :=
  mk (s_div (x v) s) (s_div (y v) s) (s_div (z v) s).

(** [s * v], the scaling of a vector *)
Definition scale (s : T) (v : t T) : t T :=
  mk (s_mul s (x v)) (s_mul s (y v)) (s_mul s (z v)).

(** [u * v] on two vectors is the dot product *)
Definition dot (u v : t T) : T :=
  s_add (s_add (s_mul (x u) (x v)) (s_mul (y u) (y v))) (s_mul (z u) (z v)).

(** [v.length()] *)
Definition length (v : t T) : T := s_sqrt (dot v v).

(** [v.normal()]: the vector divided by its length *)
Definition normal (v : t T) : t T := div v (length v).
End Ops.
End MVector.

(** ** The mesh as the host exposes it, and the state of the loop *)

(** What the script reads through [mesh_fn]: the point array, and for each
    polygon its vertex ids and its normal. *)
Record MFnMesh (T : Type) : Type := mkMesh {
  points : list (MPoint.t T);
  polygonVertices : list (list nat);
  polygonNormals : list (MVector.t T)
}.
Arguments mkMesh {T} _ _ _.
Arguments points {T} _.
Arguments polygonVertices {T} _.
Arguments polygonNormals {T} _.

(** The host object and the one list the loop appends to. *)
Record Env (T : Type) : Type := mkEnv {
  mesh_fn : MFnMesh T;
  flipped_faces : list nat
}.
Arguments mkEnv {T} _ _.
Arguments mesh_fn {T} _.
Arguments flipped_faces {T} _.

(** What can go wrong: an array indexed out of range, or a host query for a
    polygon that does not exist. *)
Inductive Exception : Type :=
  | IndexOutOfRange
  | HostFailure.

#[export] Instance Exception_eq_dec : EqDecision Exception.
Proof. solve_decision. Defined.

(** A computation reads and writes the state and either raises or returns;
    the state survives a raise, as the Python heap does. *)
Definition M (T A : Type) : Type := Env T -> (Exception + A) * Env T.

Definition ret {T A} (a : A) : M T A := fun s => (inr a, s).

Definition raise {T A} (e : Exception) : M T A := fun s => (inl e, s).

Definition bind {T A B} (m : M T A) (k : A -> M T B) : M T B :=
  fun s => match m s with
           | (inr a, s') => k a s'
           | (inl e, s') => (inl e, s')
           end.

Notation "'let*' x ':=' m 'in' k" := (bind m (fun x => k))
  (at level 10, x name, m at level 100, k at level 200).
Notation "'do' m 'then' k" := (bind m (fun _ => k))
  (at level 10, m at level 100, k at level 200).

Definition lift {T A} (r : Exception + A) : M T A :=
  match r with
  | inl e => raise e
  | inr a => ret a
  end.

(** [for a in l: body(a)] *)
Fixpoint for_each {T A} (l : list A) (body : A -> M T unit) : M T unit :=
  match l with
  | [] => ret tt
  | a :: l' => do body a then for_each l' body
  end.

Section Loop.
Context {T : Type} `{Scalar T}.

(** [mesh_fn.numPolygons()] *)
Definition numPolygons : M T nat :=
  fun s => (inr (length (polygonVertices (mesh_fn s))), s).

(** [mesh_fn.getPolygonNormal(face_id, normal)] *)
Definition getPolygonNormal (face_id : nat) : M T (MVector.t T) :=
  fun s => match polygonNormals (mesh_fn s) !! face_id with
           | Some n => (inr n, s)
           | None => (inl HostFailure, s)
           end.

(** [mesh_fn.getPoints(vertices)] *)
Definition getPoints : M T (list (MPoint.t T)) :=
  fun s => (inr (points (mesh_fn s)), s).

(** [mesh_fn.getPolygonVertices(face_id, vertex_list)] *)
Definition getPolygonVertices (face_id : nat) : M T (list nat) :=
  fun s => match polygonVertices (mesh_fn s) !! face_id with
           | Some l => (inr l, s)
           | None => (inl HostFailure, s)
           end.

(** [flipped_faces = []] *)
Definition reset_flipped_faces : M T unit :=
  fun s => (inr tt, mkEnv (mesh_fn s) []).

(** [flipped_faces.append(face_id)] *)
Definition append_flipped_face (face_id : nat) : M T unit :=
  fun s => (inr tt, mkEnv (mesh_fn s) (flipped_faces s ++ [face_id])).

Definition get_flipped_faces : M T (list nat) :=
  fun s => (inr (flipped_faces s), s).

(** Lines 54-56: the running sum of the positions of the polygon's
    vertices, in the order of [vertex_list]; [vertices[v]] raises when [v]
    is out of range. *)
Fixpoint sum_points (vertices : list (MPoint.t T)) (vertex_list : list nat)
    (center : MVector.t T) : Exception + MVector.t T :=
  match vertex_list with
  | [] => inr center
  | v :: rest =>
      match vertices !! v with
      | None => inl IndexOutOfRange
      | Some vertex_point =>
          sum_points vertices rest
            (MVector.add center
               (MVector.mk (MPoint.x vertex_point) (MPoint.y vertex_point)
                  (MPoint.z vertex_point)))
      end
  end.

(** Lines 46-57: the average position of the polygon's vertices. *)
Definition face_center (vertices : list (MPoint.t T)) (vertex_list : list nat)
    : Exception + MVector.t T :=
  match sum_points vertices vertex_list MVector.zero with
  | inl e => inl e
  | inr center => inr (MVector.div center (s_of_nat (length vertex_list)))
  end.

(** Lines 60-62: the test on a normal and a centre. *)
Definition points_inward (normal center : MVector.t T) : bool :=
  if s_ltb s_zero (MVector.length normal) then
    let normalized_normal := MVector.normal normal in
    s_ltb (MVector.dot normalized_normal center) s_zero
  else false.

(** Lines 42-63: the body of the loop over the polygons. *)
Definition check_face (face_id : nat) : M T unit :=
  let* normal := getPolygonNormal face_id in
  let* vertices := getPoints in
  let* vertex_list := getPolygonVertices face_id in
  let* center := lift (face_center vertices vertex_list) in
  if points_inward normal center then append_flipped_face face_id
  else ret tt.

(** Lines 36-63: the list of flipped polygons of the mesh. *)
Definition find_flipped_faces : M T (list nat) :=
  let* face_count := numPolygons in
  do reset_flipped_faces then
  do for_each (seq 0 face_count) check_face then
  get_flipped_faces.

(** The classifier of the specification: the loop run on a mesh made of
    the three sequences. *)
Definition classify (vertices : list (MPoint.t T)) (faces : list (list nat))
    (normals : list (MVector.t T)) : Exception + list nat :=
  fst (find_flipped_faces (mkEnv (mkMesh vertices faces normals) [])).

(** The verdict of lines 42-62 on one polygon of a mesh: the exception the
    body raises, or whether the polygon is appended. *)
Definition face_verdict (m : MFnMesh T) (face_id : nat) : Exception + bool :=
  match polygonNormals m !! face_id with
  | None => inl HostFailure
  | Some normal =>
      match polygonVertices m !! face_id with
      | None => inl HostFailure
      | Some vertex_list =>
          match face_center (points m) vertex_list with
          | inl e => inl e
          | inr center => inr (points_inward normal center)
          end
      end
  end.

Definition flagged_in (m : MFnMesh T) (face_id : nat) : Prop :=
  face_verdict m face_id = inr true.

#[export] Instance flagged_in_dec m face_id : Decision (flagged_in m face_id).
Proof. unfold flagged_in. solve_decision. Defined.

Definition returns_in (m : MFnMesh T) (face_id : nat) : Prop :=
  exists b, face_verdict m face_id = inr b.

(** [range(face_count)] *)
Definition face_ids (m : MFnMesh T) : list nat :=
  seq 0 (length (polygonVertices m)).

(** The preconditions of the contract. *)
Record preconditions (vertices : list (MPoint.t T)) (faces : list (list nat))
    (normals : list (MVector.t T)) : Prop := {
  pre_lengths : length faces = length normals;
  pre_indices : Forall (Forall (fun v => v < length vertices)) faces;
  pre_nonempty : Forall (fun vertex_list => 1 <= length vertex_list) faces
}.

(** The average of a list of positions as the specification words it: their
    sum, taken from the first to the last, divided by their number.  This
    definition follows the specification, not the script; it is compared
    with [face_center] below. *)
Definition average_position (positions : list (MPoint.t T)) : MVector.t T :=
  MVector.div
    (foldl
       (fun total p =>
          MVector.add total (MVector.mk (MPoint.x p) (MPoint.y p) (MPoint.z p)))
       MVector.zero positions)
    (s_of_nat (length positions)).

(** The positions of the vertices of a polygon: [positions[k]] is
    [vertices[vertex_list[k]]]. *)
Definition positions_of (vertices : list (MPoint.t T)) (vertex_list : list nat)
    (positions : list (MPoint.t T)) : Prop :=
  Forall2 (fun v p => vertices !! v = Some p) vertex_list positions.

(** Replacing [normals[i]] by [c * normals[i]] for the selected polygons. *)
Definition scale_normals (c : T) (selected : nat -> bool)
    (normals : list (MVector.t T)) : list (MVector.t T) :=
  imap (fun i normal => if selected i then MVector.scale c normal else normal)
    normals.

(** Scaling [normal] by [c] is exact for the loop: it changes neither the
    outcome of the test of line 60 nor, when that test passes, the unit
    normal of line 61. *)
Definition scaling_exact (c : T) (normal : MVector.t T) : Prop :=
  s_ltb s_zero (MVector.length (MVector.scale c normal)) =
    s_ltb s_zero (MVector.length normal) /\
  (s_ltb s_zero (MVector.length normal) = true ->
   MVector.normal (MVector.scale c normal) = MVector.normal normal).
End Loop.

(** ** The scenarios of the specification, on doubles *)

Definition pt (a b c : float) : MPoint.t float := MPoint.mk a b c 1%float.
Definition vec (a b c : float) : MVector.t float := MVector.mk a b c.

Definition triangle_points : list (MPoint.t float) :=
  [pt 1 0 0; pt 0 1 0; pt 0 0 1].

Definition quad_points : list (MPoint.t float) :=
  [pt 2 0 0; pt 2 2 0; pt 0 2 0; pt 0 0 0].

Definition triangle_normals : list (MVector.t float) :=
  [vec (-1) (-1) (-1); vec 1 1 1].

(** A triangle in the plane [x = -1]. *)
Definition left_points : list (MPoint.t float) :=
  [pt (-1) 0 0; pt (-1) 1 0; pt (-1) 0 1].

(** A normal so short that the square of its length underflows to zero, and
    the factor that brings it back to length one. *)
Definition tiny_normal : MVector.t float := vec 0x1p-600 0 0.
Definition huge_factor : float := 0x1p600%float.

(** The largest power of two among the doubles; twice it is infinite. *)
Definition largest_power : float := 0x1p1023%float.

(** ** The command around the loop: [fix_flipped_normals], [log_message] *)

(** A node of the scene, as far as the script tells nodes apart: a
    transform with the names of its shapes, a mesh, or any other node. *)
Inductive Node (T : Type) : Type :=
  | Transform (shapes : list string)
  | Mesh (m : MFnMesh T)
  | OtherNode.
Arguments Transform {T} _.
Arguments Mesh {T} _.
Arguments OtherNode {T}.

(** The host as the command sees it: the nodes by name, the selection, the
    text of the scroll field [normalFixerLog], what [print] has written, and
    the lists of face names that were handed to [cmds.polyNormal]. *)
Record Maya (T : Type) : Type := mkMaya {
  nodes : gmap string (Node T);
  selection : list string;
  normalFixerLog : string;
  console : list string;
  polyNormal_calls : list (list string)
}.
Arguments mkMaya {T} _ _ _ _ _.
Arguments nodes {T} _.
Arguments selection {T} _.
Arguments normalFixerLog {T} _.
Arguments console {T} _.
Arguments polyNormal_calls {T} _.

(** How the command can stop early: [mesh] is read before it was ever
    assigned, a host query names a node that does not exist, or the loop
    over the polygons raises. *)
Inductive Failure : Type :=
  | UnboundLocalError
  | NoSuchObject
  | Raised (e : Exception).

(** The line break ['\n']. *)
Definition newline : string :=
  Eval cbv in String (Ascii.ascii_of_nat 10) EmptyString.

(** The text a list of messages leaves in the scroll field. *)
Fixpoint log_text (messages : list string) : string :=
  match messages with
  | [] => EmptyString
  | message :: rest => message +:+ newline +:+ log_text rest
  end.

Section Command.
Context {T : Type} `{Scalar T}.

(** What [cmds.polyNormal(face_names, normalMode=0, userNormalMode=0, ch=1)]
    does to the nodes is the host's business. *)
Variable polyNormal : list string -> gmap string (Node T) -> gmap string (Node T).

(** Lines 73-76: the message goes to the end of the scroll field, with a
    line break, and to the console. *)
Definition log_message (message : string) (w : Maya T) : Maya T :=
  mkMaya (nodes w) (selection w)
    (normalFixerLog w +:+ message +:+ newline)
    (console w ++ [message])
    (polyNormal_calls w).

(** Line 6: [cmds.scrollField('normalFixerLog', edit=True, clear=True)] *)
Definition clear_log (w : Maya T) : Maya T :=
  mkMaya (nodes w) (selection w) EmptyString (console w) (polyNormal_calls w).

(** Line 67: the name of polygon [face] of [mesh]. *)
Definition face_name (mesh : string) (face : nat) : string :=
  mesh +:+ ".f[" +:+ pretty face +:+ "]".

(** Lines 17-22: the value of [mesh] after the branch; a transform without
    shapes leaves [mesh] as the previous pass left it. *)
Definition mesh_after_branch (node : Node T) (obj : string)
    (mesh : option string) : option string :=
  match node with
  | Transform (shape :: _) => Some shape
  | Transform [] => mesh
  | _ => Some obj
  end.

(** Lines 65-71: repair and report. *)
Definition report (obj mesh : string) (flipped : list nat) (w : Maya T)
    : Maya T :=
  match flipped with
  | [] => log_message ("No flipped normals found in " +:+ obj) w
  | _ :: _ =>
      let face_names := face_name mesh <$> flipped in
      log_message
        ("Fixed " +:+ pretty (length flipped) +:+ " flipped normals in " +:+ obj)
        (mkMaya (polyNormal face_names (nodes w)) (selection w)
           (normalFixerLog w) (console w) (polyNormal_calls w ++ [face_names]))
  end.

(** Lines 16-71: one pass of the loop over the selection.  The pass returns
    the value [mesh] has at its end. *)
Definition visit (obj : string) (mesh : option string) (w : Maya T)
    : (Failure + option string) * Maya T :=
  match nodes w !! obj with
  | None => (inl NoSuchObject, w)
  | Some node =>
      match mesh_after_branch node obj mesh with
      | None => (inl UnboundLocalError, w)
      | Some name =>
          match nodes w !! name with
          | None => (inl NoSuchObject, w)
          | Some (Mesh m) =>
              match find_flipped_faces (mkEnv m []) with
              | (inl e, _) => (inl (Raised e), w)
              | (inr flipped, _) => (inr (Some name), report obj name flipped w)
              end
          | Some _ => (inr (Some name), w)
          end
      end
  end.

(** Line 15: [for obj in selection]. *)
Fixpoint visit_all (objs : list string) (mesh : option string) (w : Maya T)
    : (Failure + unit) * Maya T :=
  match objs with
  | [] => (inr tt, w)
  | obj :: rest =>
      match visit obj mesh w with
      | (inl e, w') => (inl e, w')
      | (inr mesh', w') => visit_all rest mesh' w'
      end
  end.

(** Lines 4-71. *)
Definition fix_flipped_normals (w : Maya T) : (Failure + unit) * Maya T :=
  match selection w with
  | [] => (inr tt, log_message "Please select a mesh object" (clear_log w))
  | _ :: _ => visit_all (selection w) None (clear_log w)
  end.
(** The mesh that lines 17-24 make of a selected object: the object itself
    when it is a mesh, the first shape of a transform when that is one. *)
Definition mesh_of (ns : gmap string (Node T)) (obj : string)
    : option (string * MFnMesh T) :=
  match ns !! obj with
  | Some (Mesh m) => Some (obj, m)
  | Some (Transform (shape :: _)) =>
      match ns !! shape with
      | Some (Mesh m) => Some (shape, m)
      | _ => None
      end
  | _ => None
  end.

(** An object that line 25 passes over: a node that is neither a transform
    nor a mesh, or a transform whose first shape is a node that is no
    mesh. *)
Definition passed_over (ns : gmap string (Node T)) (obj : string) : Prop :=
  match ns !! obj with
  | Some OtherNode => True
  | Some (Transform (shape :: _)) =>
      match ns !! shape with
      | Some (Mesh _) | None => False
      | Some _ => True
      end
  | _ => False
  end.

(** What a stretch of the command added to the host: messages, and calls
    of [cmds.polyNormal]. *)
Record extends (w w' : Maya T) (messages : list string)
    (calls : list (list string)) : Prop := {
  ext_selection : selection w' = selection w;
  ext_console : console w' = console w ++ messages;
  ext_log : normalFixerLog w' = normalFixerLog w +:+ log_text messages;
  ext_calls : polyNormal_calls w' = polyNormal_calls w ++ calls;
  ext_nonempty : Forall (fun face_names => face_names <> []) calls;
  ext_nodes : calls = [] -> nodes w' = nodes w;
  ext_count : length calls <= length messages
}.
(** A line of the log that reports on [obj]: either of the two messages of
    lines 69 and 71, the first with a count that is not zero. *)
Definition report_of (obj message : string) : Prop :=
  message = "No flipped normals found in " +:+ obj \/
  exists n, 0 < n /\
    message = "Fixed " +:+ pretty n +:+ " flipped normals in " +:+ obj.
End Command.

(** A small scene: a cube whose one polygon is flipped, a plane whose one
    polygon is not, an empty group and a camera. *)
Definition flipped_mesh : MFnMesh float :=
  mkMesh triangle_points [[0; 1; 2]] [vec (-1) (-1) (-1)].

Definition clean_mesh : MFnMesh float :=
  mkMesh triangle_points [[0; 1; 2]] [vec 1 1 1].

Definition small_scene : gmap string (Node float) :=
  <["pCube1" := Transform ["pCubeShape1"]]>
  (<["pCubeShape1" := Mesh flipped_mesh]>
  (<["pPlane1" := Transform ["pPlaneShape1"]]>
  (<["pPlaneShape1" := Mesh clean_mesh]>
  (<["group1" := Transform []]>
  (<["camera1" := Transform ["cameraShape1"]]>
  (<["cameraShape1" := OtherNode]> ∅)))))).

(** The host with a selection, some text left in the log and nothing
    printed or repaired yet. *)
Definition host_with (objs : list string) : Maya float :=
  mkMaya small_scene objs "Ready to process..." [] [].

(** A stand-in for the host's [cmds.polyNormal] that leaves the nodes as
    they are. *)
Definition no_repair (face_names : list string)
    (ns : gmap string (Node float)) : gmap string (Node float) := ns.

(** ** Reversed normals, on doubles *)

(** The opposite vector. *)
Definition opposite (v : MVector.t float) : MVector.t float :=
  MVector.mk (- MVector.x v)%float (- MVector.y v)%float (- MVector.z v)%float.

(** Replacing [normals[i]] by its opposite for the selected polygons. *)
Definition reverse_normals (selected : nat -> bool)
    (normals : list (MVector.t float)) : list (MVector.t float) :=
  imap (fun i normal => if selected i then opposite normal else normal) normals.

(** Two numbers of the format that are the same up to the sign of zero. *)
Definition sf_sim (a b : spec_float) : Prop :=
  a = b \/ exists s s', a = S754_zero s /\ b = S754_zero s'.

(** ** The texture preview of [camo_texture_tool.py]

    [TexturePreviewWidget] keeps the loaded texture and three colours, and
    shows the texture with every pixel replaced by the colour of its band of
    grey.  Pixels and colours are Qt's: a pixel is a 32-bit [QRgb] value
    [0xAARRGGBB], [qGray] is [(11 r + 16 g + 5 b) / 32] on its three colour
    bytes, and [QColor.rgb()] is the opaque pixel of a colour.  The image is
    taken to hold 32-bit pixels, so that [setPixel] stores the value it is
    given. *)

Module Camo.

Definition qRed (rgb : Z) : Z := Z.land (Z.shiftr rgb 16) 255.
Definition qGreen (rgb : Z) : Z := Z.land (Z.shiftr rgb 8) 255.
Definition qBlue (rgb : Z) : Z := Z.land rgb 255.

(** [QtGui.qGray(pixel)] *)
Definition qGray (rgb : Z) : Z :=
  (qRed rgb * 11 + qGreen rgb * 16 + qBlue rgb * 5) / 32.

(** [qRgb(r, g, b)]: the opaque pixel with these colour bytes. *)
Definition qRgb (r g b : Z) : Z :=
  Z.lor (Z.shiftl 255 24)
    (Z.lor (Z.shiftl (Z.land r 255) 16)
       (Z.lor (Z.shiftl (Z.land g 255) 8) (Z.land b 255))).

(** [QtGui.QColor(r, g, b)] *)
Record QColor : Type := mkColor { red : Z; green : Z; blue : Z }.

(** [color.isValid()]: every component lies in 0..255. *)
Definition isValid (color : QColor) : bool :=
  bool_decide
    ((0 <= red color <= 255)%Z /\ (0 <= green color <= 255)%Z /\
     (0 <= blue color <= 255)%Z).

(** [color.rgb()]; a colour that is not valid gives opaque black. *)
Definition rgb (color : QColor) : Z :=
  if isValid color then qRgb (red color) (green color) (blue color)
  else qRgb 0 0 0.

(** A [QImage]: its size and the pixel at each position. *)
Record QImage : Type := mkImage {
  width : nat;
  height : nat;
  pixel : nat -> nat -> Z
}.

(** [image.setPixel(x, y, value)] *)
Definition setPixel (x y : nat) (value : Z) (image : QImage) : QImage :=
  mkImage (width image) (height image)
    (fun x' y' =>
       if decide (x' = x /\ y' = y) then value else pixel image x' y').

(** Lines 21-25: the colours a new widget starts with. *)
Definition default_colors : gmap string QColor :=
  <["white" := mkColor 255 255 255]>
  (<["grey" := mkColor 128 128 128]>
  (<["black" := mkColor 0 0 0]> ∅)).

(** [self.colors[key].rgb()]; [None] stands for the [KeyError] of a missing
    key. *)
Definition color_rgb (colors : gmap string QColor) (key : string) : option Z :=
  match colors !! key with
  | Some color => Some (rgb color)
  | None => None
  end.

(** Lines 46-54: one pixel. *)
Definition recolor_pixel (colors : gmap string QColor) (x y : nat)
    (image : QImage) : option QImage :=
  let gray := qGray (pixel image x y) in
  if decide (178 < gray)%Z then
    match color_rgb colors "white" with
    | Some value => Some (setPixel x y value image)
    | None => None
    end
  else if decide (76 < gray)%Z then
    match color_rgb colors "grey" with
    | Some value => Some (setPixel x y value image)
    | None => None
    end
  else
    match color_rgb colors "black" with
    | Some value => Some (setPixel x y value image)
    | None => None
    end.

(** A [for] loop whose body changes the image or raises. *)
Fixpoint for_range {A : Type} (l : list A)
    (body : A -> QImage -> option QImage) (image : QImage) : option QImage :=
  match l with
  | [] => Some image
  | a :: l' =>
      match body a image with
      | Some image' => for_range l' body image'
      | None => None
      end
  end.

(** Lines 44-54: the two loops over the pixels. *)
Definition recolor (colors : gmap string QColor) (image : QImage)
    : option QImage :=
  for_range (seq 0 (width image))
    (fun x image' =>
       for_range (seq 0 (height image')) (fun y => recolor_pixel colors x y)
         image')
    image.

(** The widget: the loaded texture, the colours, and the image that
    [update_preview] last handed, scaled, to [setPixmap]. *)
Record TexturePreviewWidget : Type := mkWidget {
  original_pixmap : option QImage;
  colors : gmap string QColor;
  preview : option QImage
}.

(** [pixmap.isNull()]: a pixmap without width or without height. *)
Definition isNull (pixmap : QImage) : bool :=
  bool_decide (width pixmap = 0 \/ height pixmap = 0).

(** Lines 36-63; the scaling to 200 by 200 is left to Qt.  Line 37 returns
    when there is no pixmap and when the pixmap is null. *)
Definition update_preview (self : TexturePreviewWidget)
    : option TexturePreviewWidget :=
  match original_pixmap self with
  | None => Some self
  | Some pixmap =>
      if isNull pixmap then Some self
      else
        match recolor (colors self) pixmap with
        | Some image =>
            Some (mkWidget (original_pixmap self) (colors self) (Some image))
        | None => None
        end
  end.

(** Lines 65-67 *)
Definition update_color (area : string) (color : QColor)
    (self : TexturePreviewWidget) : option TexturePreviewWidget :=
  update_preview
    (mkWidget (original_pixmap self) (<[area := color]> (colors self))
       (preview self)).

(** The key of the band of a level of grey, as lines 49-54 choose it. *)
Definition band (gray : Z) : string :=
  if decide (178 < gray)%Z then "white"
  else if decide (76 < gray)%Z then "grey"
  else "black".

(** The pixel that lines 46-54 put in the place of a pixel, for colours
    that hold the key of its band. *)
Definition band_rgb (colors : gmap string QColor) (value : Z) : Z :=
  match color_rgb colors (band (qGray value)) with
  | Some value' => value'
  | None => value
  end.

(** The three keys that [update_preview] reads. *)
Definition has_bands (colors : gmap string QColor) : Prop :=
  is_Some (colors !! "white") /\ is_Some (colors !! "grey") /\
  is_Some (colors !! "black").

(** Every colour under one of the three keys lies in the band of grey of
    its key. *)
Definition in_own_bands (colors : gmap string QColor) : Prop :=
  forall key color,
    key = "white" \/ key = "grey" \/ key = "black" ->
    colors !! key = Some color -> band (qGray (rgb color)) = key.

(** Two images of the same size with the same pixels inside it. *)
Definition same_image (a b : QImage) : Prop :=
  width a = width b /\ height a = height b /\
  forall x y, x < width a -> y < height a -> pixel a x y = pixel b x y.

End Camo.

(** A texture of three pixels in a row: white, mid grey and black. *)
Definition sample_texture : Camo.QImage :=
  Camo.mkImage 3 1
    (fun x _ =>
       match x with
       | 0 => 0xffffffff%Z
       | 1 => 0xff808080%Z
       | _ => 0xff000000%Z
       end).

Definition sample_widget : Camo.TexturePreviewWidget :=
  Camo.mkWidget (Some sample_texture) Camo.default_colors None.

(** ** Scaling by a power of two, on doubles *)

(** A number of the format with its exponent moved by [j]: the number times
    [2^j], when that is a number of the format. *)
Definition sf_scale (j : Z) (a : spec_float) : spec_float :=
  match a with
  | S754_finite s m e => S754_finite s m (e + j)
  | _ => a
  end.

(** A number that is not finite, or whose exponent is at least [b]. *)
Definition sf_above (b : Z) (a : spec_float) : Prop :=
  match a with
  | S754_finite _ _ e => (b <= e)%Z
  | _ => True
  end.

(** A zero or a finite number: neither an infinity nor a NaN. *)
Definition sf_finite (a : spec_float) : Prop :=
  match a with
  | S754_zero _ | S754_finite _ _ _ => True
  | _ => False
  end.

(** [v.length()] on the numbers of the format. *)
Definition sf_length (a b c : spec_float) : spec_float :=
  SF64sqrt (SF64add (SF64add (SF64mul a a) (SF64mul b b)) (SF64mul c c)).

(** The double [c] is [2^k]: the 53-bit mantissa [2^52] with the exponent
    [k - 52]. *)
Definition power_of_two (c : float) (k : Z) : Prop :=
  Prim2SF c = S754_finite false 4503599627370496 (k - 52).

(** The double [a] is zero, or [a] and [2^k * a] are both of magnitude at
    least [2^-398] (the exponent of the 53-bit mantissa is at least -450),
    so that no square underflows, and [2^k * a] is a double (its exponent
    is at most 971). *)
Definition in_safe_range (k : Z) (a : float) : Prop :=
  match Prim2SF a with
  | S754_zero _ => True
  | S754_finite _ _ e => (-450 <= e)%Z /\ (-450 <= e + k)%Z /\ (e + k <= 971)%Z
  | _ => False
  end.

(** Scaling [normal] by [c] neither overflows nor underflows: [c] is a power
    of two, the components of [normal] are in the safe range, and the
    lengths computed for [normal] and for [c * normal] are finite. *)
Definition safe_scaling (c : float) (normal : MVector.t float) : Prop :=
  exists k,
    power_of_two c k /\
    in_safe_range k (MVector.x normal) /\
    in_safe_range k (MVector.y normal) /\
    in_safe_range k (MVector.z normal) /\
    sf_finite (Prim2SF (MVector.length normal)) /\
    sf_finite (Prim2SF (MVector.length (MVector.scale c normal))).

(** The double nearest to 0.1. *)
Definition one_tenth : float := 0x1.999999999999ap-4%float.

(** A triangle with the centre (4,-3,0), at a right angle to (3,4,0). *)
Definition level_points : list (MPoint.t float) :=
  [pt 4 (-3) 1; pt 4 (-3) (-1); pt 4 (-3) 0].

(** ** What one pass of the loop body does *)

Section LoopFacts.
Context {T : Type} `{Scalar T}.


Lemma check_face_verdict face_id s :
  check_face face_id s =
    match face_verdict (mesh_fn s) face_id with
    | inl e => (inl e, s)
    | inr true => (inr tt, mkEnv (mesh_fn s) (flipped_faces s ++ [face_id]))
    | inr false => (inr tt, s)
    end.
Proof.
  unfold check_face, face_verdict, bind, getPolygonNormal, getPoints,
    getPolygonVertices.
  destruct (polygonNormals (mesh_fn s) !! face_id) as [normal|]; [|done].
  destruct (polygonVertices (mesh_fn s) !! face_id) as [vertex_list|]; [|done].
  destruct (face_center (points (mesh_fn s)) vertex_list) as [e|center];
    simpl; [done|].
  by destruct (points_inward normal center).
Qed.

(** The loop never touches the host object. *)
Lemma check_face_mesh face_id s :
  mesh_fn (check_face face_id s).2 = mesh_fn s.
Proof.
  rewrite check_face_verdict.
  by destruct (face_verdict (mesh_fn s) face_id) as [e|[]].
Qed.

Lemma for_each_check_face_mesh ids s :
  mesh_fn (for_each ids check_face s).2 = mesh_fn s.
Proof.
  revert s. induction ids as [|i ids IH]; intros s; simpl; [done|].
  unfold bind. pose proof (check_face_mesh i s) as Hm.
  destruct (check_face i s) as [[e|[]] s1]; simpl in *; [done|].
  by rewrite IH.
Qed.

(** The loop returns exactly when every pass returns, and then it has
    appended, in order, the polygons whose verdict is [true]. *)
Lemma for_each_check_face_returns ids s :
  Forall (returns_in (mesh_fn s)) ids ->
  for_each ids check_face s =
    (inr tt,
     mkEnv (mesh_fn s) (flipped_faces s ++ filter (flagged_in (mesh_fn s)) ids)).
Proof.
  revert s. induction ids as [|i ids IH]; intros s Hall; simpl.
  - rewrite filter_nil, app_nil_r. by destruct s.
  - apply Forall_cons in Hall as [[b Hb] Hall].
    unfold bind. rewrite check_face_verdict, Hb. rewrite filter_cons.
    destruct b.
    + rewrite IH by done. simpl.
      rewrite decide_True by done. by rewrite <- app_assoc.
    + rewrite IH by done. by rewrite decide_False by (unfold flagged_in; congruence).
Qed.

Lemma for_each_check_face_inv ids s s' :
  for_each ids check_face s = (inr tt, s') ->
  Forall (returns_in (mesh_fn s)) ids.
Proof.
  revert s. induction ids as [|i ids IH]; intros s; simpl; [by constructor|].
  unfold bind. rewrite check_face_verdict.
  destruct (face_verdict (mesh_fn s) i) as [e|b] eqn:Hv; [done|].
  intros Hrest. constructor; [by exists b|].
  destruct b; apply IH in Hrest; apply Hrest.
Qed.

(** Whatever happens, a polygon in the list after the loop was there
    before or has verdict [true]. *)
Lemma for_each_check_face_elem ids s j :
  j ∈ flipped_faces (for_each ids check_face s).2 ->
  j ∈ flipped_faces s \/ (j ∈ ids /\ flagged_in (mesh_fn s) j).
Proof.
  revert s. induction ids as [|i ids IH]; intros s; simpl; [by left|].
  unfold bind. rewrite check_face_verdict.
  destruct (face_verdict (mesh_fn s) i) as [e|b] eqn:Hv; [by left|].
  destruct b; intros Hj; apply IH in Hj; simpl in Hj.
  - destruct Hj as [Hj|[Hj Hf]].
    + apply elem_of_app in Hj as [Hj|Hj]; [by left|].
      apply list_elem_of_singleton in Hj as ->. right. split; [left|done].
    + right. split; [by right|done].
  - destruct Hj as [Hj|[Hj Hf]]; [by left|].
    right. split; [by right|done].
Qed.
End LoopFacts.

(** ** The whole loop *)

Section Classifier.
Context {T : Type} `{Scalar T}.


Lemma find_flipped_faces_unfold s :
  find_flipped_faces s =
    match for_each (face_ids (mesh_fn s)) check_face (mkEnv (mesh_fn s) []) with
    | (inr _, s') => (inr (flipped_faces s'), s')
    | (inl e, s') => (inl e, s')
    end.
Proof. reflexivity. Qed.

Lemma find_flipped_faces_returns s :
  Forall (returns_in (mesh_fn s)) (face_ids (mesh_fn s)) ->
  find_flipped_faces s =
    (inr (filter (flagged_in (mesh_fn s)) (face_ids (mesh_fn s))),
     mkEnv (mesh_fn s) (filter (flagged_in (mesh_fn s)) (face_ids (mesh_fn s)))).
Proof.
  intros Hall. rewrite find_flipped_faces_unfold.
  by rewrite for_each_check_face_returns.
Qed.

Lemma find_flipped_faces_inv s flagged s' :
  find_flipped_faces s = (inr flagged, s') ->
  Forall (returns_in (mesh_fn s)) (face_ids (mesh_fn s)) /\
  flagged = filter (flagged_in (mesh_fn s)) (face_ids (mesh_fn s)).
Proof.
  intros Hrun.
  assert (Forall (returns_in (mesh_fn s)) (face_ids (mesh_fn s))) as Hall.
  { rewrite find_flipped_faces_unfold in Hrun.
    destruct (for_each _ _ _) as [[e|[]] s1] eqn:Hloop; [done|].
    by apply for_each_check_face_inv in Hloop. }
  split; [done|].
  rewrite find_flipped_faces_returns in Hrun by done. congruence.
Qed.

(** The result of the loop is a function of the host object alone: the
    list left by an earlier run is discarded by line 38. *)
Lemma find_flipped_faces_mesh_only s1 s2 :
  mesh_fn s1 = mesh_fn s2 ->
  (find_flipped_faces s1).1 = (find_flipped_faces s2).1.
Proof.
  intros Hm. rewrite !find_flipped_faces_unfold, Hm. reflexivity.
Qed.

(** Two meshes with as many polygons and the same verdict on each give the
    same result. *)
Lemma for_each_check_face_verdicts ids s1 s2 :
  (forall i, face_verdict (mesh_fn s1) i = face_verdict (mesh_fn s2) i) ->
  flipped_faces s1 = flipped_faces s2 ->
  (for_each ids check_face s1).1 = (for_each ids check_face s2).1 /\
  flipped_faces (for_each ids check_face s1).2 =
    flipped_faces (for_each ids check_face s2).2.
Proof.
  revert s1 s2. induction ids as [|i ids IH]; intros s1 s2 Hv Hfl; simpl; [done|].
  unfold bind. rewrite !check_face_verdict, Hv.
  destruct (face_verdict (mesh_fn s2) i) as [e|[]]; simpl; [done| |].
  - apply IH; simpl; [done|by rewrite Hfl].
  - by apply IH.
Qed.

Lemma find_flipped_faces_verdicts s1 s2 :
  length (polygonVertices (mesh_fn s1)) = length (polygonVertices (mesh_fn s2)) ->
  (forall i, face_verdict (mesh_fn s1) i = face_verdict (mesh_fn s2) i) ->
  (find_flipped_faces s1).1 = (find_flipped_faces s2).1.
Proof.
  intros Hlen Hv. rewrite !find_flipped_faces_unfold. unfold face_ids.
  rewrite Hlen.
  destruct (for_each_check_face_verdicts
              (seq 0 (length (polygonVertices (mesh_fn s2))))
              (mkEnv (mesh_fn s1) []) (mkEnv (mesh_fn s2) [])) as [Hr Hf];
    [done|done|].
  destruct (for_each _ _ (mkEnv (mesh_fn s1) [])) as [[e1|[]] t1];
    destruct (for_each _ _ (mkEnv (mesh_fn s2) [])) as [[e2|[]] t2];
    simpl in *; congruence.
Qed.

Lemma find_flipped_faces_mesh s :
  mesh_fn (find_flipped_faces s).2 = mesh_fn s.
Proof.
  rewrite find_flipped_faces_unfold.
  pose proof (for_each_check_face_mesh (face_ids (mesh_fn s))
                (mkEnv (mesh_fn s) [])) as Hm.
  by destruct (for_each _ _ _) as [[e|[]] s1].
Qed.

Lemma find_flipped_faces_elem s j :
  j ∈ flipped_faces (find_flipped_faces s).2 -> flagged_in (mesh_fn s) j.
Proof.
  rewrite find_flipped_faces_unfold.
  pose proof (for_each_check_face_elem (face_ids (mesh_fn s))
                (mkEnv (mesh_fn s) []) j) as He.
  destruct (for_each _ _ _) as [[e|[]] s1]; simpl in *; intros Hj;
    (destruct (He Hj) as [Hnil|[_ Hf]]; [by apply elem_of_nil in Hnil|done]).
Qed.

Lemma classify_inv vertices faces normals flagged :
  classify vertices faces normals = inr flagged ->
  let m := mkMesh vertices faces normals in
  Forall (returns_in m) (face_ids m) /\
  flagged = filter (flagged_in m) (face_ids m).
Proof.
  unfold classify. intros Hc.
  destruct (find_flipped_faces _) as [r s'] eqn:Hrun. simpl in Hc. subst r.
  by apply find_flipped_faces_inv in Hrun.
Qed.

Lemma classify_elem vertices faces normals flagged i :
  classify vertices faces normals = inr flagged ->
  i ∈ flagged <->
  i < length faces /\ flagged_in (mkMesh vertices faces normals) i.
Proof.
  intros Hc. apply classify_inv in Hc as [_ ->].
  rewrite list_elem_of_filter. unfold face_ids. simpl.
  rewrite elem_of_seq. split; intros; intuition lia.
Qed.


Lemma sum_points_in_range vertices vertex_list center :
  Forall (fun v => v < length vertices) vertex_list ->
  exists c, sum_points vertices vertex_list center = inr c.
Proof.
  revert center.
  induction vertex_list as [|v rest IH]; intros center Hv; simpl; [by eexists|].
  apply Forall_cons in Hv as [Hv Hrest].
  apply lookup_lt_is_Some_2 in Hv as [p ->]. by apply IH.
Qed.

Lemma face_center_in_range vertices vertex_list :
  Forall (fun v => v < length vertices) vertex_list ->
  exists c, face_center vertices vertex_list = inr c.
Proof.
  intros Hv. unfold face_center.
  destruct (sum_points_in_range vertices vertex_list MVector.zero Hv) as [c ->].
  by eexists.
Qed.

(** With as many normals as polygons and all vertex ids in range, every
    pass of the loop body returns. *)
Lemma well_formed_returns vertices faces normals :
  length faces = length normals ->
  Forall (Forall (fun v => v < length vertices)) faces ->
  let m := mkMesh vertices faces normals in
  Forall (returns_in m) (face_ids m).
Proof.
  intros Hlen Hidx m. apply Forall_forall. intros i Hi.
  apply elem_of_seq in Hi as [_ Hi]. simpl in Hi.
  unfold returns_in, face_verdict. simpl.
  destruct (lookup_lt_is_Some_2 normals i) as [normal ->]; [lia|].
  destruct (lookup_lt_is_Some_2 faces i) as [vertex_list Hf]; [lia|].
  rewrite Hf.
  destruct (face_center_in_range vertices vertex_list) as [c ->]; [|by eexists].
  by eapply Forall_lookup_1 in Hidx.
Qed.

Lemma classify_well_formed vertices faces normals :
  length faces = length normals ->
  Forall (Forall (fun v => v < length vertices)) faces ->
  let m := mkMesh vertices faces normals in
  classify vertices faces normals = inr (filter (flagged_in m) (face_ids m)).
Proof.
  intros Hlen Hidx m. unfold classify.
  rewrite find_flipped_faces_returns; [done|].
  by apply well_formed_returns.
Qed.

Lemma StronglySorted_lt_seq j n : StronglySorted lt (seq j n).
Proof.
  revert j. induction n as [|n IH]; intros j; simpl; constructor; [done|].
  apply Forall_forall. intros k Hk. apply elem_of_seq in Hk. lia.
Qed.

Lemma StronglySorted_lt_filter (P : nat -> Prop) `{!forall i, Decision (P i)} l :
  StronglySorted lt l -> StronglySorted lt (filter P l).
Proof.
  induction 1 as [|a l Hs IH Ha]; [constructor|].
  rewrite filter_cons. destruct (decide (P a)); [|done].
  constructor; [done|].
  apply Forall_forall. intros k Hk.
  apply list_elem_of_filter in Hk as [_ Hk].
  by eapply Forall_forall in Ha.
Qed.

(** Lines 54-56 add up the positions of the vertices of the polygon, in
    their order, onto what [center] held. *)
Lemma sum_points_foldl (vertices : list (MPoint.t T)) (vertex_list : list nat)
    (positions : list (MPoint.t T)) (center : MVector.t T) :
  positions_of vertices vertex_list positions ->
  sum_points vertices vertex_list center =
    inr (foldl
           (fun total p =>
              MVector.add total
                (MVector.mk (MPoint.x p) (MPoint.y p) (MPoint.z p)))
           center positions).
Proof.
  intros Hpos. revert center.
  induction Hpos as [|v p vertex_list positions Hv _ IH]; intros center; simpl;
    [done|].
  by rewrite Hv, IH.
Qed.

(** Lines 46-57 compute the average position of the vertices of the
    polygon. *)
Lemma face_center_average (vertices : list (MPoint.t T))
    (vertex_list : list nat) (positions : list (MPoint.t T)) :
  positions_of vertices vertex_list positions ->
  face_center vertices vertex_list = inr (average_position positions).
Proof.
  intros Hpos. unfold face_center, average_position.
  rewrite (sum_points_foldl vertices vertex_list positions) by done.
  by rewrite (Forall2_length _ _ _ Hpos).
Qed.

(** Scaling a normal exactly does not change the verdict on its polygon. *)
Lemma face_verdict_scale_normals
    (vertices : list (MPoint.t T)) (faces : list (list nat))
    (normals : list (MVector.t T)) (c : T) (selected : nat -> bool) (i : nat) :
  (forall normal,
     selected i = true -> normals !! i = Some normal -> scaling_exact c normal) ->
  face_verdict (mkMesh vertices faces (scale_normals c selected normals)) i =
    face_verdict (mkMesh vertices faces normals) i.
Proof.
  intros Hexact. unfold face_verdict, scale_normals. simpl.
  rewrite list_lookup_imap.
  destruct (normals !! i) as [normal|] eqn:Hn; simpl; [|done].
  destruct (selected i) eqn:Hsel; [|done].
  destruct (Hexact normal eq_refl eq_refl) as [Hlen Hunit].
  destruct (faces !! i) as [vertex_list|]; [|done].
  destruct (face_center vertices vertex_list) as [e|center]; [done|].
  unfold points_inward. rewrite Hlen.
  destruct (s_ltb s_zero (MVector.length normal)); [|done].
  by rewrite Hunit.
Qed.

End Classifier.

(** ** Facts about doubles *)

Section FloatFacts.
Open Scope float_scope.

Lemma float_mul_nan (a : float) : a * nan = nan.
Proof.
  apply Prim2SF_inj. rewrite FloatAxioms.mul_spec.
  change (Prim2SF nan) with S754_nan.
  by destruct (Prim2SF a).
Qed.

Lemma float_add_nan_r (a : float) : a + nan = nan.
Proof.
  apply Prim2SF_inj. rewrite FloatAxioms.add_spec.
  change (Prim2SF nan) with S754_nan.
  by destruct (Prim2SF a).
Qed.

Lemma float_add_nan_l (a : float) : nan + a = nan.
Proof.
  apply Prim2SF_inj. rewrite FloatAxioms.add_spec.
  change (Prim2SF nan) with S754_nan.
  by destruct (Prim2SF a).
Qed.

Lemma float_mul_nan_l (a : float) : nan * a = nan.
Proof.
  apply Prim2SF_inj. rewrite FloatAxioms.mul_spec.
  change (Prim2SF nan) with S754_nan.
  by destruct (Prim2SF a).
Qed.

Lemma float_div_nan (a : float) : a / nan = nan.
Proof.
  apply Prim2SF_inj. rewrite FloatAxioms.div_spec.
  change (Prim2SF nan) with S754_nan.
  by destruct (Prim2SF a).
Qed.

(** A square root is a NaN, a zero, or positive. *)
Lemma float_sqrt_sign (a : float) :
  PrimFloat.sqrt a = nan \/ (PrimFloat.sqrt a =? 0) = true \/
  (0 <? PrimFloat.sqrt a) = true.
Proof.
  rewrite FloatAxioms.eqb_spec, FloatAxioms.ltb_spec.
  assert (Prim2SF (PrimFloat.sqrt a) = S754_nan -> PrimFloat.sqrt a = nan)
    as Hnan.
  { intros E. apply Prim2SF_inj. by rewrite E. }
  revert Hnan. rewrite FloatAxioms.sqrt_spec.
  change (Prim2SF 0) with (S754_zero false).
  unfold SF64sqrt, SFsqrt.
  destruct (Prim2SF a) as [sg|sg| |sg mant ex]; try destruct sg; cbn; auto.
  destruct (SFsqrt_core_binary _ _ _ _) as [[my ey] ly].
  unfold binary_round_aux.
  destruct (shr_fexp _ _ _ _ _) as [mrs e1].
  destruct (shr_fexp _ _ _ _ _) as [mrs2 e2].
  destruct (shr_m mrs2); cbn; auto.
  destruct (_ <=? _)%Z; cbn; auto.
Qed.

(** A number that compares equal to zero (either zero of the format) is
    neither below nor above zero. *)
Lemma float_eqb_zero (a : float) :
  (a =? 0) = true -> (0 <? a) = false /\ (a <? 0) = false.
Proof.
  rewrite FloatAxioms.eqb_spec, !FloatAxioms.ltb_spec. change (Prim2SF 0) with (S754_zero false).
  destruct (Prim2SF a) as [sg|sg| |sg mant ex]; try destruct sg; by cbn.
Qed.

(** The centre of a polygon without vertices is [0/0] in each component. *)
Lemma empty_face_center (vertices : list (MPoint.t float)) :
  face_center vertices [] = inr (vec nan nan nan).
Proof. reflexivity. Qed.

Lemma points_inward_nan (normal : MVector.t float) :
  points_inward normal (vec nan nan nan) = false.
Proof.
  unfold points_inward.
  destruct (s_ltb s_zero (MVector.length normal)); [|done].
  unfold MVector.dot, vec; simpl.
  by rewrite !float_mul_nan, !float_add_nan_l.
Qed.

Lemma points_inward_zero_length (normal center : MVector.t float) :
  (MVector.length normal =? 0) = true -> points_inward normal center = false.
Proof.
  intros Hz. apply float_eqb_zero in Hz as [Hz _].
  unfold points_inward.
  change (s_ltb s_zero (MVector.length normal))
    with (0 <? MVector.length normal).
  by rewrite Hz.
Qed.

Lemma points_inward_zero_dot (normal center : MVector.t float) :
  (MVector.dot (MVector.normal normal) center =? 0) = true ->
  points_inward normal center = false.
Proof.
  intros Hz. apply float_eqb_zero in Hz as [_ Hz].
  unfold points_inward.
  change (s_ltb (MVector.dot (MVector.normal normal) center) s_zero)
    with (MVector.dot (MVector.normal normal) center <? 0).
  rewrite Hz. by destruct (s_ltb _ _).
Qed.
(** For a normal whose length is not zero, lines 60-62 amount to the sign
    test on the dot product: a length that is not zero is positive or a
    NaN, and with a NaN length the dot product is a NaN, which is not below
    zero. *)
Lemma points_inward_nonzero_length (normal center : MVector.t float) :
  (MVector.length normal =? 0) = false ->
  points_inward normal center =
    (MVector.dot (MVector.normal normal) center <? 0).
Proof.
  intros Hnz. unfold points_inward.
  change (s_ltb s_zero (MVector.length normal))
    with (0 <? MVector.length normal).
  destruct (float_sqrt_sign (MVector.dot normal normal)) as [Hnan|[Hz|Hpos]].
  - unfold MVector.normal, MVector.length.
    change (s_sqrt (MVector.dot normal normal))
      with (PrimFloat.sqrt (MVector.dot normal normal)).
    rewrite Hnan. unfold MVector.dot, MVector.div. simpl.
    by rewrite !float_div_nan, !float_mul_nan_l, !float_add_nan_l.
  - unfold MVector.length in Hnz.
    change (s_sqrt (MVector.dot normal normal))
      with (PrimFloat.sqrt (MVector.dot normal normal)) in Hnz.
    congruence.
  - unfold MVector.length at 1.
    change (s_sqrt (MVector.dot normal normal))
      with (PrimFloat.sqrt (MVector.dot normal normal)).
    by rewrite Hpos.
Qed.
End FloatFacts.

(** ** Properties of the classifier, for any arithmetic *)

Section Contract.
Context {T : Type} `{Scalar T}.

(** When [classify] returns, a polygon whose normal passes the test of
    line 60 is in the returned list exactly when the test of line 62
    succeeds. *)
Lemma flagged_iff_guarded_dot
    (vertices : list (MPoint.t T)) (faces : list (list nat))
    (normals : list (MVector.t T)) (flagged : list nat) (i : nat)
    (vertex_list : list nat) (normal center : MVector.t T) :
  classify vertices faces normals = inr flagged ->
  faces !! i = Some vertex_list ->
  vertex_list <> [] ->
  normals !! i = Some normal ->
  s_ltb s_zero (MVector.length normal) = true ->
  face_center vertices vertex_list = inr center ->
  i ∈ flagged <->
  s_ltb (MVector.dot (MVector.normal normal) center) s_zero = true.
Proof.
  intros Hc Hf _ Hn Hlen Hcenter.
  rewrite (classify_elem _ _ _ _ i Hc).
  unfold flagged_in, face_verdict, points_inward. simpl.
  rewrite Hn, Hf, Hcenter, Hlen.
  apply lookup_lt_Some in Hf.
  split; [intros [_ Hd]; congruence | intros ->; done].
Qed.

(** C3: on an input that satisfies the preconditions of the contract the
    loop raises nothing and returns a list of polygon ids. *)
Theorem classify_returns
    (vertices : list (MPoint.t T)) (faces : list (list nat))
    (normals : list (MVector.t T)) :
  preconditions vertices faces normals ->
  exists flagged, classify vertices faces normals = inr flagged.
Proof.
  intros [Hlen Hidx _]. eexists. by apply classify_well_formed.
Qed.

(** C7: the result of the loop is that of [classify] on the mesh, whatever
    list an earlier run left behind, and running the loop again on the
    state the first run left gives the identical result and state. *)
Theorem classify_twice
    (vertices : list (MPoint.t T)) (faces : list (list nat))
    (normals : list (MVector.t T)) (left_over : list nat) :
  let s := mkEnv (mkMesh vertices faces normals) left_over in
  (find_flipped_faces s).1 = classify vertices faces normals /\
  find_flipped_faces (find_flipped_faces s).2 = find_flipped_faces s.
Proof.
  intros s. split.
  - unfold classify. by apply find_flipped_faces_mesh_only.
  - rewrite (find_flipped_faces_unfold (find_flipped_faces s).2).
    by rewrite find_flipped_faces_mesh.
Qed.

(** C8: the loop leaves the vertex positions, the vertex lists of the
    polygons and the normals as it found them, whether it returns or
    raises. *)
Theorem classify_keeps_inputs (s : Env T) :
  points (mesh_fn (find_flipped_faces s).2) = points (mesh_fn s) /\
  polygonVertices (mesh_fn (find_flipped_faces s).2) =
    polygonVertices (mesh_fn s) /\
  polygonNormals (mesh_fn (find_flipped_faces s).2) =
    polygonNormals (mesh_fn s).
Proof. by rewrite find_flipped_faces_mesh. Qed.

(** C9: on an input that satisfies the preconditions the returned ids are
    ids of polygons, none occurs twice, and they come in strictly
    increasing order. *)
Theorem flagged_ids_increasing
    (vertices : list (MPoint.t T)) (faces : list (list nat))
    (normals : list (MVector.t T)) :
  preconditions vertices faces normals ->
  exists flagged,
    classify vertices faces normals = inr flagged /\
    Forall (fun i => i < length faces) flagged /\
    NoDup flagged /\
    StronglySorted lt flagged.
Proof.
  intros [Hlen Hidx _]. eexists. split; [by apply classify_well_formed|].
  unfold face_ids. simpl. split; [|split].
  - apply Forall_forall. intros i Hi.
    apply list_elem_of_filter in Hi as [_ Hi]. apply elem_of_seq in Hi. lia.
  - apply NoDup_filter, NoDup_seq.
  - apply StronglySorted_lt_filter, StronglySorted_lt_seq.
Qed.

End Contract.

(** ** Properties of the classifier on doubles *)

Section OnDoubles.
Open Scope float_scope.

Lemma not_flagged_never_listed (m : MFnMesh float) (i : nat) :
  ~ flagged_in m i ->
  (forall left_over,
     i ∉ flipped_faces (find_flipped_faces (mkEnv m left_over)).2) /\
  (forall flagged,
     classify (points m) (polygonVertices m) (polygonNormals m) = inr flagged ->
     i ∉ flagged).
Proof.
  intros Hno. split.
  - intros left_over Hi. by apply find_flipped_faces_elem in Hi.
  - intros flagged Hc Hi.
    apply (classify_elem _ _ _ _ i Hc) in Hi as [_ Hi]. by destruct m.
Qed.

(** C1: when [classify] returns, a polygon [i] with a non-empty vertex list
    and a normal whose length is not zero is in the returned list exactly
    when the dot product of the unit normal [normals[i] / |normals[i]|]
    with the average of [vertices[v]] for [v] in [faces[i]] is strictly
    below zero. *)
Theorem flagged_iff_negative_dot
    (vertices : list (MPoint.t float)) (faces : list (list nat))
    (normals : list (MVector.t float)) (flagged : list nat) (i : nat)
    (vertex_list : list nat) (positions : list (MPoint.t float))
    (normal : MVector.t float) :
  classify vertices faces normals = inr flagged ->
  faces !! i = Some vertex_list ->
  vertex_list <> [] ->
  positions_of vertices vertex_list positions ->
  normals !! i = Some normal ->
  (MVector.length normal =? 0) = false ->
  i ∈ flagged <->
  (MVector.dot (MVector.div normal (MVector.length normal))
     (average_position positions) <? 0) = true.
Proof.
  intros Hc Hf _ Hpos Hn Hlen.
  rewrite (classify_elem _ _ _ _ i Hc).
  unfold flagged_in, face_verdict.
  cbn [points polygonVertices polygonNormals].
  rewrite Hn, Hf, (face_center_average vertices vertex_list positions Hpos).
  rewrite points_inward_nonzero_length by done.
  apply lookup_lt_Some in Hf. unfold MVector.normal.
  split; [by intros [_ [= Hd]] | by intros ->].
Qed.

(** C2: a polygon with an empty vertex list is passed over: the loop body
    raises nothing and appends nothing for it, whatever its normal, and the
    polygon is neither in the list the loop builds nor in the list
    [classify] returns. *)
Theorem empty_face_never_flagged (m : MFnMesh float) (i : nat) :
  polygonVertices m !! i = Some [] ->
  (forall normal left_over,
     polygonNormals m !! i = Some normal ->
     check_face i (mkEnv m left_over) = (inr tt, mkEnv m left_over)) /\
  (forall left_over,
     i ∉ flipped_faces (find_flipped_faces (mkEnv m left_over)).2) /\
  (forall flagged,
     classify (points m) (polygonVertices m) (polygonNormals m) = inr flagged ->
     i ∉ flagged).
Proof.
  intros Hf. split.
  - intros normal left_over Hn. rewrite check_face_verdict.
    unfold face_verdict. simpl.
    by rewrite Hn, Hf, empty_face_center, points_inward_nan.
  - apply not_flagged_never_listed.
    unfold flagged_in, face_verdict. rewrite Hf.
    destruct (polygonNormals m !! i) as [normal|]; [|done].
    by rewrite empty_face_center, points_inward_nan.
Qed.

(** C4: a polygon whose normal has length zero is passed over: when its
    vertex ids are in range the loop body raises nothing and appends
    nothing for it, and the polygon is neither in the list the loop builds
    nor in the list [classify] returns. *)
Theorem zero_normal_never_flagged (m : MFnMesh float) (i : nat)
    (normal : MVector.t float) :
  polygonNormals m !! i = Some normal ->
  (MVector.length normal =? 0) = true ->
  (forall vertex_list left_over,
     polygonVertices m !! i = Some vertex_list ->
     Forall (fun v => (v < length (points m))%nat) vertex_list ->
     check_face i (mkEnv m left_over) = (inr tt, mkEnv m left_over)) /\
  (forall left_over,
     i ∉ flipped_faces (find_flipped_faces (mkEnv m left_over)).2) /\
  (forall flagged,
     classify (points m) (polygonVertices m) (polygonNormals m) = inr flagged ->
     i ∉ flagged).
Proof.
  intros Hn Hz. split.
  - intros vertex_list left_over Hf Hidx. rewrite check_face_verdict.
    unfold face_verdict. simpl. rewrite Hn, Hf.
    destruct (face_center_in_range (points m) vertex_list Hidx) as [c ->].
    by rewrite points_inward_zero_length.
  - apply not_flagged_never_listed.
    unfold flagged_in, face_verdict. rewrite Hn.
    destruct (polygonVertices m !! i) as [vertex_list|]; [|done].
    destruct (face_center (points m) vertex_list) as [e|c]; [done|].
    by rewrite points_inward_zero_length.
Qed.

(** C5: a polygon whose dot product of unit normal and centre equals zero
    is not flagged, the test being strict; and the quad with vertices
    (2,0,0), (2,2,0), (0,2,0), (0,0,0) and normal (0,0,1) is not flagged. *)
Theorem zero_dot_not_flagged :
  (forall (m : MFnMesh float) (i : nat) (vertex_list : list nat)
          (normal center : MVector.t float),
     polygonVertices m !! i = Some vertex_list ->
     polygonNormals m !! i = Some normal ->
     face_center (points m) vertex_list = inr center ->
     (MVector.dot (MVector.normal normal) center =? 0) = true ->
     (forall left_over,
        check_face i (mkEnv m left_over) = (inr tt, mkEnv m left_over)) /\
     (forall flagged,
        classify (points m) (polygonVertices m) (polygonNormals m) = inr flagged ->
        i ∉ flagged)) /\
  face_center quad_points [0; 1; 2; 3]%nat = inr (vec 1 1 0) /\
  MVector.dot (MVector.normal (vec 0 0 1)) (vec 1 1 0) = 0 /\
  classify quad_points [[0; 1; 2; 3]%nat] [vec 0 0 1] = inr [].
Proof.
  split; [|by vm_compute].
  intros m i vertex_list normal center Hf Hn Hc Hz.
  assert (face_verdict m i = inr false) as Hv.
  { unfold face_verdict. by rewrite Hn, Hf, Hc, points_inward_zero_dot. }
  split.
  - intros left_over. rewrite check_face_verdict. simpl. by rewrite Hv.
  - apply not_flagged_never_listed. unfold flagged_in. by rewrite Hv.
Qed.

(** C6: on the triangle (1,0,0), (0,1,0), (0,0,1) taken twice, first with
    normal (-1,-1,-1) and then with normal (1,1,1), [classify] returns
    exactly polygon 0; the dot product is negative for the first normal
    and positive for the second. *)
Theorem two_triangles_flag_first :
  classify triangle_points [[0; 1; 2]; [0; 1; 2]]%nat triangle_normals
    = inr [0%nat] /\
  face_center triangle_points [0; 1; 2]%nat = inr (vec (1 / 3) (1 / 3) (1 / 3)) /\
  (MVector.dot (MVector.normal (vec (-1) (-1) (-1)))
     (vec (1 / 3) (1 / 3) (1 / 3)) <? 0) = true /\
  (0 <? MVector.dot (MVector.normal (vec 1 1 1))
     (vec (1 / 3) (1 / 3) (1 / 3))) = true.
Proof. by vm_compute. Qed.

(** What the loop returns on [tiny_normal] before and after scaling. *)
Example tiny_normal_flags :
  classify left_points [[0; 1; 2]%nat] [tiny_normal] = inr [] /\
  classify left_points [[0; 1; 2]%nat]
    (scale_normals huge_factor (fun _ => true) [tiny_normal]) = inr [0%nat].
Proof. by vm_compute. Qed.

(** Scaling can also overflow: [largest_power * 2] is infinite, the unit
    normal of an infinite vector is a NaN, and a flagged polygon is no
    longer flagged. *)
Example overflowing_normal_flags :
  classify left_points [[0; 1; 2]%nat] [vec 2 0 0] = inr [0%nat] /\
  classify left_points [[0; 1; 2]%nat]
    (scale_normals largest_power (fun _ => true) [vec 2 0 0]) = inr [].
Proof. by vm_compute. Qed.

(** C10 fails on doubles: the square of the length of [tiny_normal]
    underflows to zero, so the polygon is passed over; multiplied by the
    positive [huge_factor] the normal has length one and the polygon is
    flagged. *)
Lemma scaling_changes_flags :
  preconditions left_points [[0; 1; 2]%nat] [tiny_normal] /\
  (0 <? huge_factor) = true /\
  classify left_points [[0; 1; 2]%nat]
    (scale_normals huge_factor (fun _ => true) [tiny_normal]) <>
  classify left_points [[0; 1; 2]%nat] [tiny_normal].
Proof.
  split; [|split; [by vm_compute|]].
  - split; simpl; [done| |]; repeat constructor.
  - vm_compute. discriminate.
Qed.
End OnDoubles.

(** ** Exact arithmetic: every positive factor scales exactly *)

Section OnReals.
Open Scope R_scope.

Lemma R_length_scale (c : R) (normal : MVector.t R) :
  0 < c ->
  MVector.length (MVector.scale c normal) = c * MVector.length normal.
Proof.
  intros Hc. destruct normal as [a b d].
  unfold MVector.length, MVector.dot, MVector.scale. simpl.
  replace (c * a * (c * a) + c * b * (c * b) + c * d * (c * d))
    with (c * c * (a * a + b * b + d * d)) by ring.
  rewrite sqrt_mult; [|nra|nra].
  rewrite sqrt_square by lra. reflexivity.
Qed.

Lemma R_scaling_exact (c : R) (normal : MVector.t R) :
  0 < c -> scaling_exact c normal.
Proof.
  intros Hc. unfold scaling_exact. rewrite R_length_scale by done.
  set (len := MVector.length normal). simpl. split.
  - destruct (Rlt_dec 0 (c * len)), (Rlt_dec 0 len); try done; exfalso; nra.
  - destruct (Rlt_dec 0 len) as [Hlen|]; [intros _|done].
    unfold MVector.normal. rewrite R_length_scale by done. fold len.
    destruct normal as [a b d]. unfold MVector.div, MVector.scale. simpl.
    f_equal; field; lra.
Qed.

(** With exact arithmetic the classifier is invariant under scaling the
    normals of any subset of the polygons by any positive factor. *)
Corollary positive_scaling_invariant_R
    (vertices : list (MPoint.t R)) (faces : list (list nat))
    (normals : list (MVector.t R)) (c : R) (selected : nat -> bool) :
  0 < c ->
  classify vertices faces (scale_normals c selected normals) =
    classify vertices faces normals.
Proof.
  intros Hc. unfold classify.
  apply find_flipped_faces_verdicts; [done|].
  intros i. apply face_verdict_scale_normals.
  intros normal _ _. by apply R_scaling_exact.
Qed.
End OnReals.

(** ** Scaling the normals by a power of two *)

Section PowerOfTwoScaling.
Open Scope float_scope.

Lemma fexp_normal (x : Z) : (-1021 <= x)%Z -> fexp prec emax x = (x - 53)%Z.
Proof. unfold fexp, SpecFloat.emin, prec, emax. lia. Qed.

Lemma Zdigits2_nonneg (m : Z) : (0 <= Zdigits2 m)%Z.
Proof. destruct m; simpl; lia. Qed.

Lemma shr_fexp_shift (M E : Z) (l : location) (j : Z) :
  (-1021 <= E)%Z -> (-1021 <= E + j)%Z ->
  shr_fexp prec emax M (E + j) l =
    ((shr_fexp prec emax M E l).1, ((shr_fexp prec emax M E l).2 + j)%Z) /\
  (E <= (shr_fexp prec emax M E l).2)%Z.
Proof.
  intros HE HEj. unfold shr_fexp. pose proof (Zdigits2_nonneg M) as Hd.
  rewrite !fexp_normal by lia.
  replace (Zdigits2 M + (E + j) - 53 - (E + j))%Z with (Zdigits2 M + E - 53 - E)%Z by lia.
  unfold shr. destruct (Zdigits2 M + E - 53 - E)%Z as [|p|p] eqn:Hn; simpl; split; try lia; try done.
  f_equal. lia.
Qed.

Lemma binary_round_aux_shift (s : bool) (M E : Z) (l : location) (j : Z) :
  (-1021 <= E)%Z -> (-1021 <= E + j)%Z ->
  sf_finite (binary_round_aux prec emax s M E l) ->
  sf_finite (binary_round_aux prec emax s M (E + j) l) ->
  binary_round_aux prec emax s M (E + j) l =
    sf_scale j (binary_round_aux prec emax s M E l) /\
  sf_above E (binary_round_aux prec emax s M E l) /\
  sf_above (E + j) (binary_round_aux prec emax s M (E + j) l).
Proof.
  intros HE HEj. unfold binary_round_aux.
  destruct (shr_fexp_shift M E l j HE HEj) as [-> Hge1].
  destruct (shr_fexp prec emax M E l) as [mrs1 e1]. simpl in Hge1. simpl.
  destruct (shr_fexp_shift
              (round_nearest_even (shr_m mrs1) (loc_of_shr_record mrs1)) e1
              loc_Exact j) as [-> Hge2]; [lia|lia|].
  destruct (shr_fexp prec emax _ e1 loc_Exact) as [mrs2 e2]. simpl in Hge2. simpl.
  destruct (shr_m mrs2) as [|p|p]; simpl; try done.
  destruct (e2 <=? emax - prec)%Z eqn:H1; destruct (e2 + j <=? emax - prec)%Z eqn:H2;
    simpl; try done.
  intros _ _. split; [done|]. split; lia.
Qed.

Lemma SF64mul_shift (a b : spec_float) (j j' lo : Z) :
  (-510 <= lo)%Z ->
  sf_above lo a -> sf_above lo b ->
  sf_above lo (sf_scale j a) -> sf_above lo (sf_scale j' b) ->
  sf_finite (SF64mul a b) ->
  sf_finite (SF64mul (sf_scale j a) (sf_scale j' b)) ->
  SF64mul (sf_scale j a) (sf_scale j' b) = sf_scale (j + j') (SF64mul a b) /\
  sf_above (lo + lo) (SF64mul a b) /\
  sf_above (lo + lo) (SF64mul (sf_scale j a) (sf_scale j' b)).
Proof.
  intros Hlo. unfold SF64mul.
  destruct a as [sa|sa| |sa ma ea], b as [sb|sb| |sb mb eb]; simpl; try done.
  intros Ha Hb Ha' Hb' Hf Hf'.
  replace (ea + j + (eb + j'))%Z with (ea + eb + (j + j'))%Z in * by lia.
  destruct (binary_round_aux_shift (xorb sa sb) (Z.pos (ma * mb)) (ea + eb)
              loc_Exact (j + j')) as (Heq & Habove & Habove'); try done; try lia.
  rewrite Heq in *. split; [done|].
  destruct (binary_round_aux _ _ _ _ _ _); simpl in *; try done. lia.
Qed.

Lemma shl_align_shift (m : positive) (e e' j : Z) :
  shl_align m (e + j) (e' + j) =
    ((shl_align m e e').1, ((shl_align m e e').2 + j)%Z).
Proof.
  unfold shl_align. replace (e' + j - (e + j))%Z with (e' - e)%Z by lia.
  by destruct (e' - e)%Z.
Qed.

Lemma binary_round_shift (s : bool) (m : positive) (e j : Z) :
  (-968 <= e)%Z -> (-968 <= e + j)%Z ->
  sf_finite (binary_round prec emax s m e) ->
  sf_finite (binary_round prec emax s m (e + j)) ->
  binary_round prec emax s m (e + j) = sf_scale j (binary_round prec emax s m e) /\
  sf_above (e - 53) (binary_round prec emax s m e) /\
  sf_above (e + j - 53) (binary_round prec emax s m (e + j)).
Proof.
  intros He Hej. unfold binary_round.
  assert (0 < Z.pos (digits2_pos m))%Z as Hd by lia.
  rewrite !fexp_normal by lia.
  replace (Z.pos (digits2_pos m) + (e + j) - 53)%Z
    with (Z.pos (digits2_pos m) + e - 53 + j)%Z by lia.
  rewrite shl_align_shift.
  assert (e - 53 <= (shl_align m e (Z.pos (digits2_pos m) + e - 53)).2)%Z as Hge.
  { unfold shl_align. destruct (_ - e)%Z eqn:Hdiff; simpl; lia. }
  destruct (shl_align m e _) as [mz ez]. simpl in *.
  intros Hf Hf'.
  destruct (binary_round_aux_shift s (Z.pos mz) ez loc_Exact j)
    as (Heq & Habove & Habove'); try done; try lia.
  rewrite Heq in *. split; [done|].
  destruct (binary_round_aux _ _ _ _ _ _); simpl in *; try done. lia.
Qed.

Lemma SF64add_shift (a b : spec_float) (j lo : Z) :
  (-968 <= lo)%Z ->
  sf_above lo a -> sf_above lo b ->
  sf_above lo (sf_scale j a) -> sf_above lo (sf_scale j b) ->
  sf_finite (SF64add a b) ->
  sf_finite (SF64add (sf_scale j a) (sf_scale j b)) ->
  SF64add (sf_scale j a) (sf_scale j b) = sf_scale j (SF64add a b) /\
  sf_above (lo - 53) (SF64add a b) /\
  sf_above (lo - 53) (SF64add (sf_scale j a) (sf_scale j b)).
Proof.
  intros Hlo. unfold SF64add.
  destruct a as [sa|sa| |sa ma ea], b as [sb|sb| |sb mb eb]; simpl; try done;
    try (destruct sa, sb; done); try (intros; split; [done|split; lia]).
  intros Ha Hb Ha' Hb'.
  replace (IntDef.Z.min (ea + j) (eb + j)) with (IntDef.Z.min ea eb + j)%Z by lia.
  rewrite !shl_align_shift. simpl.
  assert (lo <= IntDef.Z.min ea eb)%Z as Hez by lia.
  assert (lo <= IntDef.Z.min ea eb + j)%Z as Hez' by lia.
  set (ez := IntDef.Z.min ea eb) in *.
  set (sum := (cond_Zopp sa (Z.pos (shl_align ma ea ez).1) +
               cond_Zopp sb (Z.pos (shl_align mb eb ez).1))%Z).
  unfold binary_normalize.
  destruct sum as [|p|p]; simpl; try done.
  - intros Hf Hf'.
    destruct (binary_round_shift false p ez j) as (Heq & Habove & Habove');
      try done; try lia.
    rewrite Heq in *. split; [done|].
    destruct (binary_round _ _ _ _ _); simpl in *; try done. lia.
  - intros Hf Hf'.
    destruct (binary_round_shift true p ez j) as (Heq & Habove & Habove');
      try done; try lia.
    rewrite Heq in *. split; [done|].
    destruct (binary_round _ _ _ _ _); simpl in *; try done. lia.
Qed.

Lemma div2_add_double (a k : Z) : IntDef.Z.div2 (a + (k + k)) = (IntDef.Z.div2 a + k)%Z.
Proof.
  change IntDef.Z.div2 with Z.div2. rewrite !Z.div2_div.
  replace (a + (k + k))%Z with (a + k * 2)%Z by lia. by rewrite Z.div_add.
Qed.

Lemma SFsqrt_core_binary_shift (m e k : Z) :
  (-1900 <= e)%Z -> (-1900 <= e + (k + k))%Z -> (0 <= Zdigits2 m)%Z ->
  SFsqrt_core_binary prec emax m (e + (k + k)) =
    let '(q, e', l) := SFsqrt_core_binary prec emax m e in (q, (e' + k)%Z, l).
Proof.
  intros He Hek Hd. unfold SFsqrt_core_binary.
  replace (Zdigits2 m + (e + (k + k)) + 1)%Z with (Zdigits2 m + e + 1 + (k + k))%Z by lia.
  rewrite !div2_add_double.
  assert (-950 <= IntDef.Z.div2 e)%Z as He2.
  { change IntDef.Z.div2 with Z.div2. rewrite Z.div2_div.
    apply Z.div_le_lower_bound; lia. }
  assert (IntDef.Z.div2 e <= IntDef.Z.div2 (Zdigits2 m + e + 1))%Z as Hmono.
  { change IntDef.Z.div2 with Z.div2. rewrite !Z.div2_div.
    apply Z.div_le_mono; lia. }
  assert (-950 <= IntDef.Z.div2 e + k)%Z as Hek2.
  { rewrite <- div2_add_double. change IntDef.Z.div2 with Z.div2.
    rewrite Z.div2_div. apply Z.div_le_lower_bound; lia. }
  rewrite !fexp_normal by lia.
  set (h := IntDef.Z.div2 (Zdigits2 m + e + 1)) in *.
  set (g := IntDef.Z.div2 e) in *.
  replace (IntDef.Z.min (h + k - 53) (g + k)) with (IntDef.Z.min (h - 53) g + k)%Z by lia.
  set (e' := IntDef.Z.min (h - 53) g).
  replace (e + (k + k) - 2 * (e' + k))%Z with (e - 2 * e')%Z by lia.
  by destruct (IntDef.Z.sqrtrem _).
Qed.

Lemma SFsqrt_core_binary_above (m e : Z) :
  (-1900 <= e)%Z -> (0 <= Zdigits2 m)%Z ->
  (-1021 <= (SFsqrt_core_binary prec emax m e).1.2)%Z.
Proof.
  intros He Hd. unfold SFsqrt_core_binary.
  assert (-950 <= IntDef.Z.div2 e)%Z as He2.
  { change IntDef.Z.div2 with Z.div2. rewrite Z.div2_div.
    apply Z.div_le_lower_bound; lia. }
  assert (IntDef.Z.div2 e <= IntDef.Z.div2 (Zdigits2 m + e + 1))%Z as Hmono.
  { change IntDef.Z.div2 with Z.div2. rewrite !Z.div2_div.
    apply Z.div_le_mono; lia. }
  rewrite fexp_normal by lia.
  destruct (IntDef.Z.sqrtrem _). simpl. lia.
Qed.

Lemma SF64sqrt_shift (a : spec_float) (k : Z) :
  sf_above (-1900) a -> sf_above (-1900) (sf_scale (k + k) a) ->
  sf_finite (SF64sqrt a) -> sf_finite (SF64sqrt (sf_scale (k + k) a)) ->
  SF64sqrt (sf_scale (k + k) a) = sf_scale k (SF64sqrt a).
Proof.
  unfold SF64sqrt, SFsqrt.
  destruct a as [sa|[]| |[] ma ea]; simpl; try done.
  intros Ha Ha'.
  rewrite SFsqrt_core_binary_shift by (simpl; lia).
  pose proof (SFsqrt_core_binary_above (Z.pos ma) ea Ha) as Hlow.
  pose proof (SFsqrt_core_binary_above (Z.pos ma) (ea + (k + k)) Ha') as Hlow'.
  rewrite SFsqrt_core_binary_shift in Hlow' by (simpl; lia).
  destruct (SFsqrt_core_binary prec emax (Z.pos ma) ea) as [[q e'] l].
  simpl in Hlow, Hlow'. intros Hf Hf'.
  destruct (binary_round_aux_shift false q e' l k) as [-> _]; try done; lia.
Qed.

Lemma SF64div_shift (a b : spec_float) (k : Z) :
  SF64div (sf_scale k a) (sf_scale k b) = SF64div a b.
Proof.
  unfold SF64div, SFdiv.
  destruct a as [sa|sa| |sa ma ea], b as [sb|sb| |sb mb eb]; simpl; try done.
  unfold SFdiv_core_binary.
  replace (Zdigits2 (Z.pos ma) + (ea + k) - (Zdigits2 (Z.pos mb) + (eb + k)))%Z
    with (Zdigits2 (Z.pos ma) + ea - (Zdigits2 (Z.pos mb) + eb))%Z by lia.
  by replace (ea + k - (eb + k))%Z with (ea - eb)%Z by lia.
Qed.

Lemma SFltb_zero_scale (a : spec_float) (k : Z) :
  SFltb (S754_zero false) (sf_scale k a) = SFltb (S754_zero false) a.
Proof. by destruct a. Qed.

Lemma SF64mul_pow2 (ec : Z) (s : bool) (m : positive) (e : Z) :
  digits2_pos m = 53%positive ->
  (-1000 <= ec + e)%Z -> (ec + e + 52 <= 971)%Z ->
  SF64mul (S754_finite false 4503599627370496 ec) (S754_finite s m e) =
    S754_finite s m (e + (ec + 52)).
Proof.
  intros Hd Hlow Hhigh. unfold SF64mul, SFmul.
  change (xorb false s) with s.
  change (4503599627370496 * m)%positive
    with (Pos.iter xO m 52%positive).
  unfold binary_round_aux, shr_fexp.
  assert (Zdigits2 (Z.pos (Pos.iter xO m 52)) = 105%Z) as ->.
  { cbn. rewrite Hd. reflexivity. }
  rewrite fexp_normal by lia.
  replace (105 + (ec + e) - 53 - (ec + e))%Z with 52%Z by lia.
  cbn [shr shr_record_of_loc].
  change (SpecFloat.iter_pos shr_1 52 {| shr_m := Z.pos (Pos.iter xO m 52); shr_r := false; shr_s := false |})
    with {| shr_m := Z.pos m; shr_r := false; shr_s := false |}.
  cbn [shr_m loc_of_shr_record shr_r shr_s round_nearest_even Zdigits2].
  rewrite Hd. rewrite fexp_normal by lia.
  replace (53 + (ec + e + 52) - 53 - (ec + e + 52))%Z with 0%Z by lia.
  cbn [shr shr_record_of_loc shr_m].
  replace (ec + e + 52 <=? emax - prec)%Z with true
    by (symmetry; apply Z.leb_le; unfold emax, prec; lia).
  f_equal. lia.
Qed.

Lemma SF64add_finite_inv (a b : spec_float) :
  sf_finite (SF64add a b) -> sf_finite a /\ sf_finite b.
Proof.
  unfold SF64add.
  destruct a as [sa|sa| |sa ma ea], b as [sb|sb| |sb mb eb]; simpl; try done;
    by destruct sa, sb.
Qed.

Lemma SF64sqrt_finite_inv (a : spec_float) :
  sf_finite (SF64sqrt a) -> sf_finite a.
Proof. unfold SF64sqrt. by destruct a as [sa|[]| |[] ma ea]. Qed.

Lemma sf_length_shift (X Y W : spec_float) (k : Z) :
  sf_above (-450) X -> sf_above (-450) Y -> sf_above (-450) W ->
  sf_above (-450) (sf_scale k X) -> sf_above (-450) (sf_scale k Y) ->
  sf_above (-450) (sf_scale k W) ->
  sf_finite (sf_length X Y W) ->
  sf_finite (sf_length (sf_scale k X) (sf_scale k Y) (sf_scale k W)) ->
  sf_length (sf_scale k X) (sf_scale k Y) (sf_scale k W) =
    sf_scale k (sf_length X Y W).
Proof.
  intros HX HY HZ HX' HY' HZ'. unfold sf_length. intros Hf Hf'.
  pose proof (SF64sqrt_finite_inv _ Hf) as Hs.
  pose proof (SF64sqrt_finite_inv _ Hf') as Hs'.
  destruct (SF64add_finite_inv _ _ Hs) as [Hxy Hz].
  destruct (SF64add_finite_inv _ _ Hs') as [Hxy' Hz'].
  destruct (SF64add_finite_inv _ _ Hxy) as [Hx Hy].
  destruct (SF64add_finite_inv _ _ Hxy') as [Hx' Hy'].
  destruct (SF64mul_shift X X k k (-450)) as (EX & AX & AX'); try done.
  destruct (SF64mul_shift Y Y k k (-450)) as (EY & AY & AY'); try done.
  destruct (SF64mul_shift W W k k (-450)) as (EZ & AZ & AZ'); try done.
  rewrite EX, EY, EZ in *. simpl in AX, AY, AZ, AX', AY', AZ'.
  destruct (SF64add_shift (SF64mul X X) (SF64mul Y Y) (k + k) (-900))
    as (EXY & AXY & AXY'); try done.
  rewrite EXY in *. simpl in AXY, AXY'.
  assert (forall a, sf_above (-900) a -> sf_above (-953) a) as Hweak.
  { intros [| | |s m e]; simpl; lia. }
  destruct (SF64add_shift (SF64add (SF64mul X X) (SF64mul Y Y)) (SF64mul W W)
              (k + k) (-953)) as (ES & AS & AS'); try done; try (by apply Hweak).
  rewrite ES in *. simpl in AS, AS'.
  assert (forall a, sf_above (-1006) a -> sf_above (-1900) a) as Hweak2.
  { intros [| | |s m e]; simpl; lia. }
  apply SF64sqrt_shift; try done; by apply Hweak2.
Qed.

(** A double with an exponent above the least one has a mantissa of 53
    bits. *)
Lemma valid_digits (a : float) (s : bool) (m : positive) (e : Z) :
  Prim2SF a = S754_finite s m e -> (-450 <= e)%Z ->
  digits2_pos m = 53%positive.
Proof.
  intros Ha He. pose proof (Prim2SF_valid a) as Hvalid. rewrite Ha in Hvalid.
  unfold SpecFloat.valid_binary, bounded, canonical_mantissa in Hvalid.
  apply andb_prop in Hvalid as [Hcanon _]. apply Z.eqb_eq in Hcanon.
  unfold fexp, SpecFloat.emin, prec, emax in Hcanon.
  assert (Z.pos (digits2_pos m) = 53%Z) as Hd by lia. by injection Hd.
Qed.

(** The product of a power of two and a double in the safe range is
    exact. *)
Lemma float_mul_pow2 (c a : float) (k : Z) :
  power_of_two c k -> in_safe_range k a ->
  Prim2SF (c * a) = sf_scale k (Prim2SF a) /\
  sf_above (-450) (Prim2SF a) /\ sf_above (-450) (sf_scale k (Prim2SF a)).
Proof.
  unfold power_of_two, in_safe_range. intros Hc Ha.
  rewrite FloatAxioms.mul_spec, Hc.
  destruct (Prim2SF a) as [s|s| |s m e] eqn:Hrep; try done.
  destruct Ha as (Hlow & Hlow' & Hhigh).
  rewrite SF64mul_pow2;
    [|by eapply valid_digits|lia|lia].
  simpl. split; [f_equal; lia|done].
Qed.

Lemma Prim2SF_length (v : MVector.t float) :
  Prim2SF (MVector.length v) =
    sf_length (Prim2SF (MVector.x v)) (Prim2SF (MVector.y v))
      (Prim2SF (MVector.z v)).
Proof.
  unfold MVector.length, MVector.dot, sf_length.
  cbn [s_sqrt s_add s_mul float_Scalar].
  by rewrite FloatAxioms.sqrt_spec, !FloatAxioms.add_spec, !FloatAxioms.mul_spec.
Qed.

(** A power of two that neither overflows nor underflows scales the length
    exactly. *)
Lemma length_scale_pow2 (c : float) (normal : MVector.t float) (k : Z) :
  power_of_two c k ->
  in_safe_range k (MVector.x normal) ->
  in_safe_range k (MVector.y normal) ->
  in_safe_range k (MVector.z normal) ->
  sf_finite (Prim2SF (MVector.length normal)) ->
  sf_finite (Prim2SF (MVector.length (MVector.scale c normal))) ->
  Prim2SF (MVector.length (MVector.scale c normal)) =
    sf_scale k (Prim2SF (MVector.length normal)).
Proof.
  intros Hc Hx Hy Hz. rewrite !Prim2SF_length.
  unfold MVector.scale. cbn [MVector.x MVector.y MVector.z s_mul float_Scalar].
  destruct (float_mul_pow2 c (MVector.x normal) k Hc Hx) as (-> & Ax & Ax').
  destruct (float_mul_pow2 c (MVector.y normal) k Hc Hy) as (-> & Ay & Ay').
  destruct (float_mul_pow2 c (MVector.z normal) k Hc Hz) as (-> & Az & Az').
  intros Hf Hf'. by apply sf_length_shift.
Qed.

(** Under [safe_scaling] the test of line 60 and the unit normal of line 61
    come out the same for [normal] and for [c * normal]. *)
Lemma safe_scaling_exact (c : float) (normal : MVector.t float) :
  safe_scaling c normal -> scaling_exact c normal.
Proof.
  intros (k & Hc & Hx & Hy & Hz & Hf & Hf').
  pose proof (length_scale_pow2 c normal k Hc Hx Hy Hz Hf Hf') as Hlen.
  split.
  - change (s_ltb s_zero ?a) with (0 <? a).
    rewrite !FloatAxioms.ltb_spec, Hlen.
    change (Prim2SF 0) with (S754_zero false). apply SFltb_zero_scale.
  - intros _. unfold MVector.normal, MVector.div.
    cbn [s_div float_Scalar].
    unfold MVector.scale at 1 3 5.
    cbn [MVector.x MVector.y MVector.z s_mul float_Scalar].
    f_equal; apply Prim2SF_inj; rewrite !FloatAxioms.div_spec, Hlen.
    + destruct (float_mul_pow2 c (MVector.x normal) k Hc Hx) as (-> & _).
      apply SF64div_shift.
    + destruct (float_mul_pow2 c (MVector.y normal) k Hc Hy) as (-> & _).
      apply SF64div_shift.
    + destruct (float_mul_pow2 c (MVector.z normal) k Hc Hz) as (-> & _).
      apply SF64div_shift.
Qed.

(** C10, amended: the returned list does not change when the normals of any
    subset of the polygons are multiplied by a power of two [c], provided
    the scaling neither overflows nor underflows: every component of a
    scaled normal is zero or has, before and after the scaling, a magnitude
    of at least [2^-398], its multiple is a double, and the lengths computed
    before and after are finite. *)
Theorem power_of_two_scaling_invariant
    (vertices : list (MPoint.t float)) (faces : list (list nat))
    (normals : list (MVector.t float)) (c : float) (selected : nat -> bool) :
  (forall i normal,
     selected i = true -> normals !! i = Some normal -> safe_scaling c normal) ->
  classify vertices faces (scale_normals c selected normals) =
    classify vertices faces normals.
Proof.
  intros Hsafe. unfold classify.
  apply find_flipped_faces_verdicts; [done|].
  intros i. apply face_verdict_scale_normals.
  intros normal Hsel Hn. apply safe_scaling_exact. by apply (Hsafe i).
Qed.

(** A factor that is no power of two can change the flags without any
    overflow or underflow: the normal (3,4,0) is at a right angle to the
    centre (4,-3,0); the dot product computed with the unit normal of
    (3,4,0) is just below zero, the one computed after scaling by 0.1 is
    not. *)
Example tenth_scaling_flags :
  classify level_points [[0; 1; 2]%nat] [vec 3 4 0] <>
  classify level_points [[0; 1; 2]%nat]
    (scale_normals one_tenth (fun _ => true) [vec 3 4 0]).
Proof. vm_compute. discriminate. Qed.
End PowerOfTwoScaling.

(** ** The theorems at the scenarios of the specification *)

Section AtScenarios.
Open Scope float_scope.

Lemma flagged_iff_negative_dot_witness :
  classify triangle_points [[0; 1; 2]%nat] [vec (-1) (-1) (-1)] = inr [0%nat] /\
  positions_of triangle_points [0; 1; 2]%nat triangle_points /\
  average_position triangle_points = vec (1 / 3) (1 / 3) (1 / 3) /\
  ((0%nat ∈ [0%nat]) <->
   (MVector.dot
      (MVector.div (vec (-1) (-1) (-1)) (MVector.length (vec (-1) (-1) (-1))))
      (average_position triangle_points) <? 0) = true).
Proof.
  assert (positions_of triangle_points [0; 1; 2]%nat triangle_points) as Hpos.
  { repeat constructor. }
  split; [vm_compute; reflexivity|]. split; [exact Hpos|].
  split; [vm_compute; reflexivity|].
  apply (flagged_iff_negative_dot triangle_points [[0; 1; 2]%nat]
           [vec (-1) (-1) (-1)] [0%nat] 0 [0; 1; 2]%nat triangle_points).
  - vm_compute. reflexivity.
  - reflexivity.
  - discriminate.
  - exact Hpos.
  - reflexivity.
  - vm_compute. reflexivity.
Defined.

Lemma triangle_preconditions :
  preconditions triangle_points [[0; 1; 2]; [0; 1; 2]]%nat triangle_normals.
Proof. split; simpl; [done| |]; repeat constructor. Defined.

Lemma classify_returns_witness :
  preconditions triangle_points [[0; 1; 2]; [0; 1; 2]]%nat triangle_normals /\
  exists flagged,
    classify triangle_points [[0; 1; 2]; [0; 1; 2]]%nat triangle_normals
      = inr flagged.
Proof.
  split; [exact triangle_preconditions|].
  apply (classify_returns triangle_points [[0; 1; 2]; [0; 1; 2]]%nat
           triangle_normals).
  exact triangle_preconditions.
Defined.

Lemma flagged_ids_increasing_witness :
  preconditions triangle_points [[0; 1; 2]; [0; 1; 2]]%nat triangle_normals /\
  exists flagged,
    classify triangle_points [[0; 1; 2]; [0; 1; 2]]%nat triangle_normals
      = inr flagged /\
    Forall (fun i => (i < 2)%nat) flagged /\
    NoDup flagged /\
    StronglySorted lt flagged.
Proof.
  split; [exact triangle_preconditions|].
  apply (flagged_ids_increasing triangle_points [[0; 1; 2]; [0; 1; 2]]%nat
           triangle_normals).
  exact triangle_preconditions.
Defined.

(** A mesh whose second polygon has no vertices. *)
Lemma empty_face_never_flagged_witness :
  let m := mkMesh triangle_points [[0; 1; 2]; []]%nat
             [vec 1 1 1; vec (-1) (-1) (-1)] in
  polygonVertices m !! 1%nat = Some [] /\
  classify (points m) (polygonVertices m) (polygonNormals m) = inr [] /\
  (forall flagged,
     classify (points m) (polygonVertices m) (polygonNormals m) = inr flagged ->
     1%nat ∉ flagged).
Proof.
  intros m. split; [reflexivity|]. split; [vm_compute; reflexivity|].
  apply (empty_face_never_flagged m 1). reflexivity.
Defined.

(** A mesh whose polygon has the normal (0,0,0). *)
Lemma zero_normal_never_flagged_witness :
  let m := mkMesh [pt (-1) 0 0; pt 0 (-1) 0; pt 0 0 (-1)] [[0; 1; 2]%nat]
             [vec 0 0 0] in
  polygonNormals m !! 0%nat = Some (vec 0 0 0) /\
  (MVector.length (vec 0 0 0) =? 0) = true /\
  (forall flagged,
     classify (points m) (polygonVertices m) (polygonNormals m) = inr flagged ->
     0%nat ∉ flagged).
Proof.
  intros m. split; [reflexivity|]. split; [vm_compute; reflexivity|].
  apply (zero_normal_never_flagged m 0 (vec 0 0 0)).
  - reflexivity.
  - vm_compute. reflexivity.
Defined.

Lemma zero_dot_not_flagged_witness :
  let m := mkMesh quad_points [[0; 1; 2; 3]%nat] [vec 0 0 1] in
  (MVector.dot (MVector.normal (vec 0 0 1)) (vec 1 1 0) =? 0) = true /\
  (forall flagged,
     classify (points m) (polygonVertices m) (polygonNormals m) = inr flagged ->
     0%nat ∉ flagged).
Proof.
  intros m. split; [vm_compute; reflexivity|].
  apply (proj1 zero_dot_not_flagged m 0%nat [0; 1; 2; 3]%nat (vec 0 0 1)
           (vec 1 1 0)).
  - reflexivity.
  - reflexivity.
  - vm_compute. reflexivity.
  - vm_compute. reflexivity.
Defined.

(** Doubling the first normal of the two triangles is safe. *)
Lemma power_of_two_scaling_invariant_witness :
  safe_scaling 2 (vec (-1) (-1) (-1)) /\
  classify triangle_points [[0; 1; 2]; [0; 1; 2]]%nat
    (scale_normals 2 (Nat.eqb 0) triangle_normals) =
  classify triangle_points [[0; 1; 2]; [0; 1; 2]]%nat triangle_normals.
Proof.
  assert (safe_scaling 2 (vec (-1) (-1) (-1))) as Hsafe.
  { exists 1%Z. repeat split; vm_compute; try done. }
  split; [exact Hsafe|].
  apply (power_of_two_scaling_invariant triangle_points
           [[0; 1; 2]; [0; 1; 2]]%nat triangle_normals 2 (Nat.eqb 0)).
  intros [|i] normal Hsel Hn; [|discriminate].
  injection Hn as <-. exact Hsafe.
Defined.
End AtScenarios.

(** ** Properties of the command around the loop *)

Section CommandFacts.
Context {T : Type} `{Scalar T}.
Variable polyNormal : list string -> gmap string (Node T) -> gmap string (Node T).

Lemma string_app_cons (ch : Ascii.ascii) (a b : string) :
  String ch a +:+ b = String ch (a +:+ b).
Proof. reflexivity. Qed.

Lemma string_app_empty_l (a : string) : "" +:+ a = a.
Proof. reflexivity. Qed.

Lemma string_app_assoc (a b c : string) : (a +:+ b) +:+ c = a +:+ b +:+ c.
Proof.
  induction a as [|ch a' IH]; [done|].
  by rewrite !string_app_cons, IH.
Qed.

Lemma string_app_empty_r (a : string) : a +:+ "" = a.
Proof.
  induction a as [|ch a' IH]; [done|].
  by rewrite string_app_cons, IH.
Qed.

Lemma log_text_app (l1 l2 : list string) :
  log_text (l1 ++ l2) = log_text l1 +:+ log_text l2.
Proof.
  induction l1 as [|m l1 IH]; simpl; [done|].
  by rewrite IH, !string_app_assoc.
Qed.

Lemma extends_refl (w : Maya T) : extends w w [] [].
Proof.
  split; simpl; rewrite ?app_nil_r, ?string_app_empty_r; by try constructor.
Qed.

Lemma extends_trans (w1 w2 w3 : Maya T) msgs1 msgs2 calls1 calls2 :
  extends w1 w2 msgs1 calls1 -> extends w2 w3 msgs2 calls2 ->
  extends w1 w3 (msgs1 ++ msgs2) (calls1 ++ calls2).
Proof.
  intros [Hs1 Hc1 Hl1 Hp1 Hn1 Hd1 Hk1] [Hs2 Hc2 Hl2 Hp2 Hn2 Hd2 Hk2]. split.
  - congruence.
  - by rewrite Hc2, Hc1, app_assoc.
  - by rewrite Hl2, Hl1, log_text_app, string_app_assoc.
  - by rewrite Hp2, Hp1, app_assoc.
  - by apply Forall_app.
  - intros [-> ->]%app_eq_nil. rewrite Hd2, Hd1; done.
  - rewrite !length_app. lia.
Qed.

Lemma log_message_extends (message : string) (w : Maya T) :
  extends w (log_message message w) [message] [].
Proof.
  split; simpl; rewrite ?app_nil_r; try done. lia.
Qed.

Lemma report_extends (obj mesh : string) (flipped : list nat) (w : Maya T) :
  exists calls,
    extends w (report polyNormal obj mesh flipped w)
      [match flipped with
       | [] => "No flipped normals found in " +:+ obj
       | _ :: _ =>
           "Fixed " +:+ pretty (length flipped) +:+ " flipped normals in " +:+ obj
       end] calls /\
    calls = match flipped with
            | [] => []
            | _ :: _ => [face_name mesh <$> flipped]
            end.
Proof.
  destruct flipped as [|face flipped]; eexists; (split; [|done]).
  - apply log_message_extends.
  - split; simpl; try done. by repeat constructor.
Qed.

Lemma report_of_report (obj mesh : string) (flipped : list nat) :
  report_of obj
    match flipped with
    | [] => "No flipped normals found in " +:+ obj
    | _ :: _ =>
        "Fixed " +:+ pretty (length flipped) +:+ " flipped normals in " +:+ obj
    end.
Proof.
  destruct flipped as [|face flipped]; [by left|].
  right. exists (length (face :: flipped)). split; [simpl; lia|done].
Qed.

(** One pass adds at most one line, a report on its object. *)
Lemma visit_extends (obj : string) (mesh : option string) (w : Maya T) :
  exists msgs calls,
    extends w (visit polyNormal obj mesh w).2 msgs calls /\
    (msgs = [] \/ exists msg, msgs = [msg] /\ report_of obj msg).
Proof.
  unfold visit.
  destruct (nodes w !! obj) as [node|];
    [|exists [], []; split; [apply extends_refl|by left]].
  destruct (mesh_after_branch node obj mesh) as [name|];
    [|exists [], []; split; [apply extends_refl|by left]].
  destruct (nodes w !! name) as [[shapes|m|]|];
    try (exists [], []; split; [apply extends_refl|by left]).
  destruct (find_flipped_faces (mkEnv m [])) as [[e|flipped] s'];
    [exists [], []; split; [apply extends_refl|by left]|].
  destruct (report_extends obj name flipped w) as [calls [Hext _]].
  eexists _, calls. split; [exact Hext|].
  right. eexists. split; [done|]. by apply report_of_report.
Qed.

(** The passes over a list of objects add reports on some of them, in their
    order. *)
Lemma visit_all_extends (objs : list string) (mesh : option string) (w : Maya T) :
  exists msgs calls reported,
    extends w (visit_all polyNormal objs mesh w).2 msgs calls /\
    reported `sublist_of` objs /\
    Forall2 report_of reported msgs.
Proof.
  revert mesh w. induction objs as [|obj objs IH]; intros mesh w; simpl.
  - exists [], [], []. split; [apply extends_refl|]. by split; constructor.
  - destruct (visit_extends obj mesh w) as (msgs1 & calls1 & Hext1 & Hmsg1).
    assert (exists reported1, reported1 `sublist_of` [obj] /\
              Forall2 report_of reported1 msgs1) as (reported1 & Hsub1 & Hrep1).
    { destruct Hmsg1 as [->|(msg & -> & Hrep)].
      - exists []. split; [apply sublist_nil_l|constructor].
      - exists [obj]. split; [done|]. constructor; [done|constructor]. }
    destruct (visit polyNormal obj mesh w) as [[e|mesh'] w1]; simpl in *.
    + exists msgs1, calls1, reported1. split; [done|]. split; [|done].
      change (obj :: objs) with ([obj] ++ objs). by apply sublist_inserts_r.
    + destruct (IH mesh' w1) as (msgs2 & calls2 & reported2 & Hext2 & Hsub2 & Hrep2).
      exists (msgs1 ++ msgs2), (calls1 ++ calls2), (reported1 ++ reported2).
      split; [by eapply extends_trans|]. split.
      * change (obj :: objs) with ([obj] ++ objs). by apply sublist_app.
      * by apply Forall2_app.
Qed.

Lemma clear_log_fields (w : Maya T) :
  nodes (clear_log w) = nodes w /\ selection (clear_log w) = selection w /\
  console (clear_log w) = console w /\
  polyNormal_calls (clear_log w) = polyNormal_calls w /\
  normalFixerLog (clear_log w) = "".
Proof. done. Qed.

Lemma fix_flipped_normals_extends (w : Maya T) :
  exists msgs calls,
    extends (clear_log w) (fix_flipped_normals polyNormal w).2 msgs calls /\
    match selection w with
    | [] => msgs = ["Please select a mesh object"] /\ calls = []
    | _ :: _ =>
        exists reported,
          reported `sublist_of` selection w /\ Forall2 report_of reported msgs
    end.
Proof.
  unfold fix_flipped_normals.
  destruct (selection w) as [|obj objs] eqn:Hsel.
  - eexists _, []. split; [apply log_message_extends|done].
  - destruct (visit_all_extends (obj :: objs) None (clear_log w))
      as (msgs & calls & reported & Hext & Hsub & Hrep).
    exists msgs, calls. split; [done|]. by exists reported.
Qed.

Lemma string_app_char_inj (ch : Ascii.ascii) (a b : string) :
  a +:+ String ch "" = b +:+ String ch "" -> a = b.
Proof.
  revert b. induction a as [|c a IH]; intros [|d b];
    rewrite ?string_app_cons, ?string_app_empty_l; intros Heq.
  - done.
  - injection Heq as _ Heq. by destruct b.
  - injection Heq as _ Heq. by destruct a.
  - injection Heq as -> Heq. f_equal. by apply IH.
Qed.

Lemma face_name_inj (mesh : string) (i j : nat) :
  face_name mesh i = face_name mesh j -> i = j.
Proof.
  unfold face_name. intros Heq.
  apply String.app_inj, String.app_inj, string_app_char_inj in Heq.
  by apply pretty_nat_inj in Heq.
Qed.

Lemma classify_mesh (m : MFnMesh T) :
  classify (points m) (polygonVertices m) (polygonNormals m) =
    (find_flipped_faces (mkEnv m [])).1.
Proof. by destruct m. Qed.

Lemma mesh_of_branch (ns : gmap string (Node T)) (obj name : string)
    (m : MFnMesh T) :
  mesh_of ns obj = Some (name, m) ->
  exists node,
    ns !! obj = Some node /\
    (forall mesh, mesh_after_branch node obj mesh = Some name) /\
    ns !! name = Some (Mesh m).
Proof.
  unfold mesh_of. intros Hm.
  destruct (ns !! obj) as [[[|shape shapes]|m'|]|] eqn:Hobj; try done.
  - destruct (ns !! shape) as [[|m'|]|] eqn:Hshape; try done.
    injection Hm as <- <-. by eexists.
  - injection Hm as <- <-. by eexists.
Qed.

(** A pass over an object that stands for a mesh on which the loop over the
    polygons returns. *)
Lemma visit_mesh_of (obj name : string) (mesh : option string) (m : MFnMesh T)
    (flagged : list nat) (w : Maya T) :
  mesh_of (nodes w) obj = Some (name, m) ->
  classify (points m) (polygonVertices m) (polygonNormals m) = inr flagged ->
  visit polyNormal obj mesh w =
    (inr (Some name), report polyNormal obj name flagged w).
Proof.
  intros (node & Hobj & Hbranch & Hname)%mesh_of_branch Hc.
  rewrite classify_mesh in Hc. unfold visit.
  rewrite Hobj, Hbranch, Hname.
  destruct (find_flipped_faces (mkEnv m [])) as [r s']. simpl in Hc. by subst r.
Qed.

Lemma visit_passed_over (obj : string) (mesh : option string) (w : Maya T) :
  passed_over (nodes w) obj ->
  exists name, visit polyNormal obj mesh w = (inr (Some name), w).
Proof.
  unfold passed_over, visit. intros Hp.
  destruct (nodes w !! obj) as [[[|shape shapes]|m|]|] eqn:Hobj; try done; simpl.
  - destruct (nodes w !! shape) as [[|m|]|]; try done; by eexists.
  - rewrite Hobj. by eexists.
Qed.

(** Once [mesh] is assigned it stays assigned. *)
Lemma visit_bound (obj : string) (mesh : option string) (w : Maya T) mesh' w' :
  visit polyNormal obj mesh w = (inr mesh', w') -> is_Some mesh'.
Proof.
  unfold visit. intros Hv.
  destruct (nodes w !! obj) as [node|]; [|done].
  destruct (mesh_after_branch node obj mesh) as [name|]; [|done].
  destruct (nodes w !! name) as [[shapes|m|]|]; try done;
    try (injection Hv as <- _; by eexists).
  destruct (find_flipped_faces (mkEnv m [])) as [[e|flipped] s']; [done|].
  injection Hv as <- _. by eexists.
Qed.

Lemma visit_not_unbound (obj name : string) (w : Maya T) :
  (visit polyNormal obj (Some name) w).1 <> inl UnboundLocalError.
Proof.
  unfold visit.
  destruct (nodes w !! obj) as [[[|shape shapes]|m|]|]; simpl; try done.
  - destruct (nodes w !! name) as [[|m|]|]; try done.
    by destruct (find_flipped_faces (mkEnv m [])) as [[e|flipped] s'].
  - destruct (nodes w !! shape) as [[|m|]|]; try done.
    by destruct (find_flipped_faces (mkEnv m [])) as [[e|flipped] s'].
  - destruct (nodes w !! obj) as [[|m'|]|]; try done.
    by destruct (find_flipped_faces (mkEnv m' [])) as [[e|flipped] s'].
  - destruct (nodes w !! obj) as [[|m'|]|]; try done.
    by destruct (find_flipped_faces (mkEnv m' [])) as [[e|flipped] s'].
Qed.

Lemma visit_all_not_unbound (objs : list string) (name : string) (w : Maya T) :
  (visit_all polyNormal objs (Some name) w).1 <> inl UnboundLocalError.
Proof.
  revert name w. induction objs as [|obj objs IH]; intros name w; simpl; [done|].
  pose proof (visit_not_unbound obj name w) as Hno.
  destruct (visit polyNormal obj (Some name) w) as [[e|mesh'] w1] eqn:Hv;
    simpl in *; [intros [= ->]; by apply Hno|].
  apply visit_bound in Hv as [name' ->]. apply IH.
Qed.
End CommandFacts.

(** ** What the command does to the host *)

Section CommandContract.
Context {T : Type} `{Scalar T}.
Variable polyNormal : list string -> gmap string (Node T) -> gmap string (Node T).

(** X1: whatever the outcome of a run, the scroll field shows exactly the
    lines this run printed, the text of earlier runs being cleared; with an
    empty selection the only line is the request to select a mesh, otherwise
    the lines are reports on selected objects, at most one for each, in the
    order of the selection. *)
Theorem log_shows_this_run (w : Maya T) :
  exists msgs,
    console (fix_flipped_normals polyNormal w).2 = console w ++ msgs /\
    normalFixerLog (fix_flipped_normals polyNormal w).2 = log_text msgs /\
    match selection w with
    | [] => msgs = ["Please select a mesh object"]
    | _ :: _ =>
        exists reported,
          reported `sublist_of` selection w /\ Forall2 report_of reported msgs
    end.
Proof.
  destruct (fix_flipped_normals_extends polyNormal w) as (msgs & calls & Hext & Hsel).
  exists msgs. split; [apply (ext_console _ _ _ _ Hext)|]. split.
  - by rewrite (ext_log _ _ _ _ Hext).
  - destruct (selection w); [by destruct Hsel|done].
Qed.

(** X2: whatever the outcome of a run, [cmds.polyNormal] is never called
    with an empty list of faces, it is called at most once for each selected
    object, and when it is not called the nodes of the scene are as they
    were. *)
Theorem polyNormal_only_with_faces (w : Maya T) :
  exists calls,
    polyNormal_calls (fix_flipped_normals polyNormal w).2 =
      polyNormal_calls w ++ calls /\
    Forall (fun face_names => face_names <> []) calls /\
    length calls <= length (selection w) /\
    (calls = [] -> nodes (fix_flipped_normals polyNormal w).2 = nodes w).
Proof.
  destruct (fix_flipped_normals_extends polyNormal w) as (msgs & calls & Hext & Hsel).
  exists calls. split; [apply (ext_calls _ _ _ _ Hext)|].
  split; [apply (ext_nonempty _ _ _ _ Hext)|].
  split; [|apply (ext_nodes _ _ _ _ Hext)].
  pose proof (ext_count _ _ _ _ Hext) as Hcount.
  destruct (selection w) as [|obj objs].
  - destruct Hsel as [_ ->]. simpl. lia.
  - destruct Hsel as (reported & Hsub%sublist_length & Hrep%Forall2_length). lia.
Qed.

(** X3: a selection of objects that are neither meshes nor transforms whose
    first shape is a mesh is passed over without a word: the run returns,
    the log is cleared and stays empty, nothing is printed and nothing is
    repaired.  Only the first shape of a transform is looked at. *)
Theorem passed_over_silently (w : Maya T) :
  selection w <> [] ->
  Forall (passed_over (nodes w)) (selection w) ->
  fix_flipped_normals polyNormal w = (inr tt, clear_log w).
Proof.
  intros Hne Hall. unfold fix_flipped_normals.
  destruct (selection w) as [|obj objs] eqn:Hsel; [done|].
  change (nodes w) with (nodes (clear_log w)) in Hall.
  generalize (@None string). generalize dependent (clear_log w).
  intros w0. clear. intros Hall.
  induction Hall as [|o os Ho _ IH]; intros mesh; simpl; [done|].
  destruct (visit_passed_over polyNormal o mesh w0 Ho) as [name ->]. apply IH.
Qed.

(** X4: a run stops with [UnboundLocalError] exactly when the first selected
    object is a transform without shapes: line 24 then reads [mesh], which
    no pass has assigned yet. *)
Theorem unbound_mesh_iff (w : Maya T) :
  (fix_flipped_normals polyNormal w).1 = inl UnboundLocalError <->
  exists obj rest,
    selection w = obj :: rest /\ nodes w !! obj = Some (Transform []).
Proof.
  unfold fix_flipped_normals. split.
  - destruct (selection w) as [|obj rest]; [done|]. simpl.
    intros Hrun. exists obj, rest. split; [done|].
    unfold visit in Hrun. simpl in Hrun.
    destruct (nodes w !! obj) as [[[|shape shapes]|m|]|] eqn:Hobj; try done;
      exfalso; simpl in Hrun.
    + destruct (nodes w !! shape) as [[|m|]|];
        try (by apply visit_all_not_unbound in Hrun); try done.
      destruct (find_flipped_faces (mkEnv m [])) as [[e|flipped] s']; [done|].
      by apply visit_all_not_unbound in Hrun.
    + rewrite Hobj in Hrun.
      destruct (find_flipped_faces (mkEnv m [])) as [[e|flipped] s']; [done|].
      by apply visit_all_not_unbound in Hrun.
    + rewrite Hobj in Hrun. by apply visit_all_not_unbound in Hrun.
  - intros (obj & rest & -> & Hobj). simpl. unfold visit. simpl.
    by rewrite Hobj.
Qed.

(** X5: a transform without shapes that comes after another object does not
    stop the run: the pass works on the mesh of the pass before it, with the
    same outcome, the same call of [cmds.polyNormal] and the same nodes
    afterwards as a pass on that mesh itself. *)
Theorem empty_group_repeats_previous_mesh (w : Maya T)
    (group previous : string) (m : MFnMesh T) (mesh : option string) :
  nodes w !! group = Some (Transform []) ->
  nodes w !! previous = Some (Mesh m) ->
  (visit polyNormal group (Some previous) w).1 =
    (visit polyNormal previous mesh w).1 /\
  nodes (visit polyNormal group (Some previous) w).2 =
    nodes (visit polyNormal previous mesh w).2 /\
  polyNormal_calls (visit polyNormal group (Some previous) w).2 =
    polyNormal_calls (visit polyNormal previous mesh w).2.
Proof.
  intros Hgroup Hprev. unfold visit. rewrite Hgroup, Hprev. simpl.
  rewrite Hprev.
  destruct (find_flipped_faces (mkEnv m [])) as [[e|[|face flipped]] s']; done.
Qed.

(** X6: when every selected object is a mesh, or a transform whose first
    shape is a mesh, and the loop over the polygons flags no polygon of any
    of them, the run returns, prints for every selected object, in order,
    that no flipped normals were found in it, and changes nothing else. *)
Theorem clean_selection_reported_clean (w : Maya T) :
  selection w <> [] ->
  Forall (fun obj => exists name m,
            mesh_of (nodes w) obj = Some (name, m) /\
            classify (points m) (polygonVertices m) (polygonNormals m) = inr [])
    (selection w) ->
  fix_flipped_normals polyNormal w =
    (inr tt,
     mkMaya (nodes w) (selection w)
       (log_text (String.append "No flipped normals found in " <$> selection w))
       (console w ++ (String.append "No flipped normals found in " <$> selection w))
       (polyNormal_calls w)).
Proof.
  intros Hne Hall. unfold fix_flipped_normals.
  destruct (selection w) as [|obj objs] eqn:Hsel; [done|].
  assert (forall objs mesh (w0 : Maya T),
    Forall (fun obj => exists name m,
              mesh_of (nodes w0) obj = Some (name, m) /\
              classify (points m) (polygonVertices m) (polygonNormals m) = inr [])
      objs ->
    visit_all polyNormal objs mesh w0 =
      (inr tt,
       mkMaya (nodes w0) (selection w0)
         (normalFixerLog w0 +:+
            log_text (String.append "No flipped normals found in " <$> objs))
         (console w0 ++ (String.append "No flipped normals found in " <$> objs))
         (polyNormal_calls w0))) as Hloop.
  { clear. intros objs. induction objs as [|obj objs IH]; intros mesh w0 Hall.
    - simpl. rewrite string_app_empty_r, app_nil_r. clear. destruct w0. reflexivity.
    - apply Forall_cons in Hall as [(name & m & Hm & Hc) Hall]. simpl.
      rewrite (visit_mesh_of polyNormal obj name mesh m [] w0 Hm Hc). simpl.
      rewrite IH by done. simpl.
      by rewrite !string_app_assoc, <- app_assoc. }
  rewrite Hloop by done. simpl. by rewrite Hsel.
Qed.

(** X7: when the one selected object is a mesh, or a transform whose first
    shape is a mesh, and the loop over the polygons flags some polygons,
    [cmds.polyNormal] is called once, with the names [mesh.f[i]] of exactly
    the flagged polygons [i], each once, under the name of the mesh; the
    line printed gives their number under the name of the selected object. *)
Theorem repair_names_flagged_faces (w : Maya T) (obj name : string)
    (m : MFnMesh T) (flagged : list nat) :
  selection w = [obj] ->
  mesh_of (nodes w) obj = Some (name, m) ->
  classify (points m) (polygonVertices m) (polygonNormals m) = inr flagged ->
  flagged <> [] ->
  fix_flipped_normals polyNormal w =
    (inr tt,
     mkMaya (polyNormal (face_name name <$> flagged) (nodes w)) [obj]
       (log_text ["Fixed " +:+ pretty (length (face_name name <$> flagged)) +:+
                  " flipped normals in " +:+ obj])
       (console w ++ ["Fixed " +:+ pretty (length (face_name name <$> flagged)) +:+
                      " flipped normals in " +:+ obj])
       (polyNormal_calls w ++ [face_name name <$> flagged])) /\
  NoDup (face_name name <$> flagged) /\
  (forall i, face_name name i ∈ face_name name <$> flagged <-> i ∈ flagged).
Proof.
  intros Hsel Hm Hc Hne. split; [|split].
  - unfold fix_flipped_normals. rewrite Hsel. simpl.
    rewrite (visit_mesh_of polyNormal obj name None m flagged (clear_log w) Hm Hc).
    destruct flagged as [|face flagged]; [done|].
    simpl. by rewrite Hsel, !length_fmap.
  - apply NoDup_fmap_2; [intros i j; apply face_name_inj|].
    apply classify_inv in Hc as [_ ->]. apply NoDup_filter, NoDup_seq.
  - intros i. rewrite list_elem_of_fmap. split; [|by exists i].
    intros (j & Heq & Hj). by apply face_name_inj in Heq as ->.
Qed.
End CommandContract.

(** ** The command on a small scene *)

Section OnSmallScene.

Lemma passed_over_silently_witness :
  fix_flipped_normals no_repair (host_with ["camera1"; "cameraShape1"]) =
    (inr tt, clear_log (host_with ["camera1"; "cameraShape1"])).
Proof.
  apply (passed_over_silently no_repair (host_with ["camera1"; "cameraShape1"])).
  - discriminate.
  - apply Forall_cons. split; [vm_compute; exact I|].
    apply Forall_cons. split; [vm_compute; exact I|]. exact (Forall_nil_2 _).
Defined.

Lemma empty_group_repeats_previous_mesh_witness :
  (visit no_repair "group1" (Some "pCubeShape1") (host_with [])).1 =
    (visit no_repair "pCubeShape1" None (host_with [])).1 /\
  nodes (visit no_repair "group1" (Some "pCubeShape1") (host_with [])).2 =
    nodes (visit no_repair "pCubeShape1" None (host_with [])).2 /\
  polyNormal_calls (visit no_repair "group1" (Some "pCubeShape1") (host_with [])).2 =
    polyNormal_calls (visit no_repair "pCubeShape1" None (host_with [])).2.
Proof.
  apply (empty_group_repeats_previous_mesh no_repair (host_with []) "group1"
           "pCubeShape1" flipped_mesh None).
  - vm_compute. reflexivity.
  - vm_compute. reflexivity.
Defined.

Lemma clean_selection_reported_clean_witness :
  console
    (fix_flipped_normals no_repair (host_with ["pPlane1"; "pPlaneShape1"])).2 =
  ["No flipped normals found in pPlane1";
   "No flipped normals found in pPlaneShape1"].
Proof.
  rewrite (clean_selection_reported_clean no_repair
             (host_with ["pPlane1"; "pPlaneShape1"])).
  - reflexivity.
  - discriminate.
  - apply Forall_cons. split.
    { exists "pPlaneShape1", clean_mesh. split; vm_compute; reflexivity. }
    apply Forall_cons. split; [|exact (Forall_nil_2 _)].
    exists "pPlaneShape1", clean_mesh. split; vm_compute; reflexivity.
Defined.

Lemma repair_names_flagged_faces_witness :
  polyNormal_calls (fix_flipped_normals no_repair (host_with ["pCube1"])).2 =
    [["pCubeShape1.f[0]"]] /\
  console (fix_flipped_normals no_repair (host_with ["pCube1"])).2 =
    ["Fixed 1 flipped normals in pCube1"].
Proof.
  destruct (repair_names_flagged_faces no_repair (host_with ["pCube1"])
              "pCube1" "pCubeShape1" flipped_mesh [0]) as [Hrun _].
  - reflexivity.
  - vm_compute. reflexivity.
  - vm_compute. reflexivity.
  - discriminate.
  - rewrite Hrun. split; vm_compute; reflexivity.
Defined.
End OnSmallScene.

(** ** When the loop raises, and what a verdict depends on *)

Section LoopContract.
Context {T : Type} `{Scalar T}.

Lemma sum_points_returns_in_range (vertices : list (MPoint.t T))
    (vertex_list : list nat) (center c : MVector.t T) :
  sum_points vertices vertex_list center = inr c ->
  Forall (fun v => v < length vertices) vertex_list.
Proof.
  revert center. induction vertex_list as [|v rest IH]; intros center; simpl.
  - intros _. apply Forall_nil_2.
  - destruct (vertices !! v) as [p|] eqn:Hv; [|done].
    intros Hrest. apply Forall_cons. split; [by eapply lookup_lt_Some|].
    by eapply IH.
Qed.

Lemma sum_points_ext (vertices1 vertices2 : list (MPoint.t T))
    (vertex_list : list nat) (center : MVector.t T) :
  (forall v, v ∈ vertex_list -> vertices1 !! v = vertices2 !! v) ->
  sum_points vertices1 vertex_list center =
    sum_points vertices2 vertex_list center.
Proof.
  revert center. induction vertex_list as [|v rest IH]; intros center Hagree;
    simpl; [done|].
  rewrite (Hagree v) by left.
  destruct (vertices2 !! v) as [p|]; [|done].
  apply IH. intros v' Hv'. apply Hagree. by right.
Qed.

Lemma returns_in_inv (m : MFnMesh T) (i : nat) :
  returns_in m i ->
  i < length (polygonNormals m) /\
  exists vertex_list,
    polygonVertices m !! i = Some vertex_list /\
    Forall (fun v => v < length (points m)) vertex_list.
Proof.
  unfold returns_in, face_verdict. intros [b Hb].
  destruct (polygonNormals m !! i) as [normal|] eqn:Hn; [|done].
  destruct (polygonVertices m !! i) as [vertex_list|] eqn:Hf; [|done].
  split; [by eapply lookup_lt_Some|]. exists vertex_list. split; [done|].
  unfold face_center in Hb.
  destruct (sum_points (points m) vertex_list MVector.zero) as [e|c] eqn:Hs;
    [done|].
  by eapply sum_points_returns_in_range.
Qed.

(** X8: the loop over the polygons returns a list exactly when there is a
    normal for every polygon and every vertex id of every polygon is within
    the point array; normals beyond the last polygon do no harm. *)
Theorem classify_returns_iff
    (vertices : list (MPoint.t T)) (faces : list (list nat))
    (normals : list (MVector.t T)) :
  (exists flagged, classify vertices faces normals = inr flagged) <->
  length faces <= length normals /\
  Forall (Forall (fun v => v < length vertices)) faces.
Proof.
  split.
  - intros [flagged Hc]. apply classify_inv in Hc as [Hall _].
    unfold face_ids in Hall. simpl in Hall.
    rewrite Forall_forall in Hall. split.
    + destruct (decide (length faces = 0)) as [->|Hne]; [lia|].
      destruct (returns_in_inv (mkMesh vertices faces normals)
                  (length faces - 1)) as [Hn _].
      { apply Hall, elem_of_seq. lia. }
      simpl in Hn. lia.
    + apply Forall_lookup. intros i vertex_list Hf.
      destruct (returns_in_inv (mkMesh vertices faces normals) i)
        as [_ (vl & Hvl & Hrange)].
      { apply Hall, elem_of_seq. apply lookup_lt_Some in Hf. lia. }
      simpl in *. congruence.
  - intros [Hlen Hidx]. eexists. unfold classify.
    rewrite find_flipped_faces_returns; [done|]. simpl.
    apply Forall_forall. intros i Hi.
    apply elem_of_seq in Hi as [_ Hi]. simpl in Hi.
    unfold returns_in, face_verdict. simpl.
    destruct (lookup_lt_is_Some_2 normals i) as [normal ->]; [lia|].
    destruct (lookup_lt_is_Some_2 faces i) as [vertex_list Hf]; [lia|].
    rewrite Hf.
    destruct (face_center_in_range vertices vertex_list) as [c ->]; [|by eexists].
    by eapply Forall_lookup_1 in Hidx.
Qed.

(** X9: whether polygon [i] is flagged depends only on its own vertex list,
    its own normal and the positions of its own vertices: two inputs that
    agree on these, and on which the loop returns, agree on polygon [i]. *)
Theorem flag_depends_on_own_face
    (vertices1 vertices2 : list (MPoint.t T)) (faces1 faces2 : list (list nat))
    (normals1 normals2 : list (MVector.t T)) (flagged1 flagged2 : list nat)
    (i : nat) :
  classify vertices1 faces1 normals1 = inr flagged1 ->
  classify vertices2 faces2 normals2 = inr flagged2 ->
  faces1 !! i = faces2 !! i ->
  normals1 !! i = normals2 !! i ->
  (forall vertex_list v,
     faces1 !! i = Some vertex_list -> v ∈ vertex_list ->
     vertices1 !! v = vertices2 !! v) ->
  i ∈ flagged1 <-> i ∈ flagged2.
Proof.
  intros Hc1 Hc2 Hf Hn Hv.
  rewrite (classify_elem _ _ _ _ i Hc1), (classify_elem _ _ _ _ i Hc2).
  assert (i < length faces1 <-> i < length faces2) as ->.
  { by rewrite <- !lookup_lt_is_Some, Hf. }
  assert (face_verdict (mkMesh vertices1 faces1 normals1) i =
          face_verdict (mkMesh vertices2 faces2 normals2) i) as Hverdict.
  { unfold face_verdict. simpl. rewrite <- Hn, <- Hf.
    destruct (normals1 !! i) as [normal|]; [|done].
    destruct (faces1 !! i) as [vertex_list|] eqn:Hfi; [|done].
    unfold face_center.
    by rewrite (sum_points_ext vertices1 vertices2 vertex_list)
      by (intros v Hin; by eapply Hv). }
  unfold flagged_in. by rewrite Hverdict.
Qed.
End LoopContract.

(** ** Reversing the normals of the flagged polygons *)

Section Reversal.
Open Scope float_scope.

Lemma binary_round_aux_negb (s : bool) (m e : Z) (l : location) :
  binary_round_aux prec emax (negb s) m e l =
    SFopp (binary_round_aux prec emax s m e l).
Proof.
  unfold binary_round_aux.
  destruct (shr_fexp _ _ _ _ _) as [mrs e1].
  destruct (shr_fexp _ _ _ _ _) as [mrs2 e2].
  destruct (shr_m mrs2); try reflexivity.
  destruct (_ <=? _)%Z; reflexivity.
Qed.

Lemma binary_round_negb (s : bool) (m : positive) (e : Z) :
  binary_round prec emax (negb s) m e = SFopp (binary_round prec emax s m e).
Proof.
  unfold binary_round. destruct (shl_align _ _ _) as [mz ez].
  apply binary_round_aux_negb.
Qed.

Lemma SFopp_involutive (a : spec_float) : SFopp (SFopp a) = a.
Proof. destruct a as [s|s| |s m e]; simpl; by rewrite ?negb_involutive. Qed.

Lemma SF64mul_opp_l (a b : spec_float) :
  SF64mul (SFopp a) b = SFopp (SF64mul a b).
Proof.
  unfold SF64mul.
  destruct a as [sa|sa| |sa ma ea], b as [sb|sb| |sb mb eb]; simpl;
    try reflexivity; try (by destruct sa, sb).
  rewrite <- binary_round_aux_negb. by destruct sa, sb.
Qed.

Lemma SF64mul_opp_r (a b : spec_float) :
  SF64mul a (SFopp b) = SFopp (SF64mul a b).
Proof.
  unfold SF64mul.
  destruct a as [sa|sa| |sa ma ea], b as [sb|sb| |sb mb eb]; simpl;
    try reflexivity; try (by destruct sa, sb).
  rewrite <- binary_round_aux_negb. by destruct sa, sb.
Qed.

Lemma SF64div_opp_l (a b : spec_float) :
  SF64div (SFopp a) b = SFopp (SF64div a b).
Proof.
  unfold SF64div.
  destruct a as [sa|sa| |sa ma ea], b as [sb|sb| |sb mb eb]; simpl;
    try reflexivity; try (by destruct sa, sb).
  destruct (SFdiv_core_binary _ _ _ _ _ _) as [[mz ez] lz].
  rewrite <- binary_round_aux_negb. by destruct sa, sb.
Qed.

(** The sum of the opposites is the opposite of the sum, up to the sign of
    a zero sum. *)
Lemma SF64add_opp (a b : spec_float) :
  sf_sim (SF64add (SFopp a) (SFopp b)) (SFopp (SF64add a b)).
Proof.
  unfold SF64add.
  destruct a as [sa|sa| |sa ma ea], b as [sb|sb| |sb mb eb]; simpl;
    try (left; reflexivity);
    try (destruct sa, sb; simpl; (left; reflexivity) || (right; eauto); fail).
  set (ez := IntDef.Z.min ea eb).
  set (A := Z.pos (fst (shl_align ma ea ez))).
  set (B := Z.pos (fst (shl_align mb eb ez))).
  assert (cond_Zopp (negb sa) A + cond_Zopp (negb sb) B =
          - (cond_Zopp sa A + cond_Zopp sb B))%Z as ->.
  { destruct sa, sb; simpl; lia. }
  destruct (cond_Zopp sa A + cond_Zopp sb B)%Z as [|p|p]; simpl.
  - right; eauto.
  - left. apply (binary_round_negb false).
  - left. by rewrite <- (binary_round_negb true).
Qed.

Lemma SF64add_sim_l (a a' b : spec_float) :
  sf_sim a a' -> sf_sim (SF64add a b) (SF64add a' b).
Proof.
  intros [Heq|(s & s' & Ha & Hb)]; subst; [by left|].
  unfold SF64add.
  destruct b as [sb|sb| |sb mb eb]; simpl; try (left; reflexivity).
  destruct s, s', sb; simpl; (left; reflexivity) || (right; eauto).
Qed.

Lemma sf_sim_trans (a b c : spec_float) :
  sf_sim a b -> sf_sim b c -> sf_sim a c.
Proof.
  intros [Hab|(s & s' & Ha & Hb)] [Hbc|(t & t' & Hb' & Hc)]; subst;
    try (by left); try (right; eauto; fail).
Qed.

Lemma SFltb_opposite (d d' : spec_float) :
  sf_sim d' (SFopp d) -> SFltb d (S754_zero false) = true ->
  SFltb d' (S754_zero false) = false.
Proof.
  intros Hs Hd.
  destruct d as [sd|sd| |sd md ed]; try destruct sd; try discriminate;
    destruct Hs as [Heq|(s & s' & Heq & He)]; subst; try discriminate;
    reflexivity.
Qed.

Lemma float_opp_mul_opp (a : float) : (- a) * (- a) = a * a.
Proof.
  apply Prim2SF_inj.
  by rewrite !FloatAxioms.mul_spec, !FloatAxioms.opp_spec, SF64mul_opp_l,
    SF64mul_opp_r, SFopp_involutive.
Qed.

Lemma float_opp_div (a b : float) : (- a) / b = - (a / b).
Proof.
  apply Prim2SF_inj.
  by rewrite FloatAxioms.div_spec, !FloatAxioms.opp_spec, SF64div_opp_l,
    FloatAxioms.div_spec.
Qed.

Lemma length_opposite (normal : MVector.t float) :
  MVector.length (opposite normal) = MVector.length normal.
Proof.
  unfold MVector.length, MVector.dot, opposite. simpl.
  by rewrite !float_opp_mul_opp.
Qed.

Lemma normal_opposite (normal : MVector.t float) :
  MVector.normal (opposite normal) = opposite (MVector.normal normal).
Proof.
  unfold MVector.normal. rewrite length_opposite.
  unfold MVector.div, opposite. simpl. by rewrite !float_opp_div.
Qed.

(** The dot product with the opposite vector is the opposite dot product,
    up to the sign of zero. *)
Lemma dot_opposite (u center : MVector.t float) :
  sf_sim (Prim2SF (MVector.dot (opposite u) center))
    (SFopp (Prim2SF (MVector.dot u center))).
Proof.
  unfold MVector.dot, opposite. simpl.
  rewrite !FloatAxioms.add_spec, !FloatAxioms.mul_spec, !FloatAxioms.opp_spec,
    !SF64mul_opp_l.
  eapply sf_sim_trans; [|apply SF64add_opp].
  apply SF64add_sim_l, SF64add_opp.
Qed.

(** A polygon and the same polygon with the opposite normal are never both
    flagged. *)
Lemma points_inward_opposite (normal center : MVector.t float) :
  points_inward normal center = true ->
  points_inward (opposite normal) center = false.
Proof.
  unfold points_inward. rewrite length_opposite, normal_opposite.
  destruct (s_ltb s_zero (MVector.length normal)); [|done].
  change (s_ltb ?d s_zero) with (d <? 0). rewrite !FloatAxioms.ltb_spec.
  change (Prim2SF 0) with (S754_zero false).
  intros Hd. eapply SFltb_opposite; [apply dot_opposite|done].
Qed.

Lemma face_verdict_reversed (vertices : list (MPoint.t float))
    (faces : list (list nat)) (normals : list (MVector.t float))
    (selected : nat -> bool) (i : nat) :
  face_verdict (mkMesh vertices faces (reverse_normals selected normals)) i =
    match face_verdict (mkMesh vertices faces normals) i with
    | inl e => inl e
    | inr true => inr (negb (selected i))
    | inr false =>
        if selected i
        then face_verdict
               (mkMesh vertices faces (reverse_normals selected normals)) i
        else inr false
    end /\
  (returns_in (mkMesh vertices faces normals) i ->
   returns_in (mkMesh vertices faces (reverse_normals selected normals)) i).
Proof.
  unfold returns_in, face_verdict, reverse_normals. simpl.
  rewrite list_lookup_imap.
  destruct (normals !! i) as [normal|]; simpl; [|by split; [|intros []]].
  destruct (faces !! i) as [vertex_list|]; [|by split; [|intros []]].
  destruct (face_center vertices vertex_list) as [e|center];
    [by split; [|intros []]|].
  split; [|intros _; by eexists].
  destruct (selected i); simpl.
  - destruct (points_inward normal center) eqn:Hp; [|done].
    by rewrite points_inward_opposite.
  - by destruct (points_inward normal center).
Qed.

(** X10: when the loop returns a list of flagged polygons, the same input
    with the normals of exactly those polygons replaced by their opposites
    makes the loop return the empty list: no reversed polygon is flagged
    again and no other polygon changes. *)
Theorem reversing_flagged_leaves_none
    (vertices : list (MPoint.t float)) (faces : list (list nat))
    (normals : list (MVector.t float)) (flagged : list nat) :
  classify vertices faces normals = inr flagged ->
  classify vertices faces
    (reverse_normals (fun i => bool_decide (i ∈ flagged)) normals) = inr [].
Proof.
  intros Hc. pose proof Hc as Hflagged.
  apply classify_inv in Hc as [Hall _]. unfold classify.
  rewrite find_flipped_faces_returns.
  - simpl. f_equal. apply elem_of_nil_inv. intros i Hi.
    apply list_elem_of_filter in Hi as [Hi Hseq]. unfold face_ids in Hseq.
    simpl in Hseq. apply elem_of_seq in Hseq as [_ Hlt]. simpl in Hlt.
    unfold flagged_in in Hi.
    destruct (face_verdict_reversed vertices faces normals
                (fun i => bool_decide (i ∈ flagged)) i) as [Hv _].
    rewrite Hi in Hv.
    pose proof (classify_elem _ _ _ _ i Hflagged) as Helem.
    unfold flagged_in in Helem.
    destruct (face_verdict (mkMesh vertices faces normals) i) as [e|[]] eqn:Hvi;
      [done| |].
    + rewrite bool_decide_true in Hv by (apply Helem; by split). done.
    + destruct (bool_decide (i ∈ flagged)) eqn:Hsel; [|done].
      apply bool_decide_eq_true in Hsel. apply Helem in Hsel as [_ Hsel]. done.
  - simpl. unfold face_ids in *. simpl in *.
    eapply Forall_impl; [exact Hall|]. intros i Hi.
    by apply face_verdict_reversed.
Qed.
End Reversal.

(** ** Properties of the texture preview *)

Section Preview.
Import Camo.

Lemma recolor_pixel_band (colors : gmap string QColor) (x y : nat)
    (image : QImage) :
  recolor_pixel colors x y image =
    match color_rgb colors (band (qGray (pixel image x y))) with
    | Some value => Some (setPixel x y value image)
    | None => None
    end.
Proof.
  unfold recolor_pixel, band. by repeat case_decide.
Qed.

Lemma has_bands_band (colors : gmap string QColor) (gray : Z) :
  has_bands colors -> is_Some (color_rgb colors (band gray)).
Proof.
  intros (Hw & Hg & Hb). unfold color_rgb, band.
  repeat case_decide;
    [destruct Hw as [c ->]|destruct Hg as [c ->]|destruct Hb as [c ->]];
    by eexists.
Qed.

(** The loop over one column. *)
Lemma recolor_column (colors : gmap string QColor) (x : nat) (ys : list nat)
    (image : QImage) :
  has_bands colors -> NoDup ys ->
  exists image',
    for_range ys (fun y => recolor_pixel colors x y) image = Some image' /\
    width image' = width image /\ height image' = height image /\
    forall x' y',
      pixel image' x' y' =
        if decide (x' = x /\ y' ∈ ys)
        then band_rgb colors (pixel image x' y')
        else pixel image x' y'.
Proof.
  intros Hbands. revert image.
  induction ys as [|y ys IH]; intros image Hnodup; simpl.
  - exists image. repeat split; try done. intros x' y'.
    rewrite decide_False; [done|]. intros [_ Hin]. by apply elem_of_nil in Hin.
  - apply NoDup_cons in Hnodup as [Hy Hnodup].
    rewrite recolor_pixel_band.
    destruct (has_bands_band colors (qGray (pixel image x y)) Hbands)
      as [value Hvalue].
    rewrite Hvalue.
    destruct (IH (setPixel x y value image) Hnodup)
      as (image' & -> & Hw & Hh & Hpix).
    exists image'. repeat split; try done. intros x' y'.
    rewrite Hpix. simpl. unfold band_rgb.
    destruct (decide (x' = x /\ y' ∈ ys)) as [[-> Hin]|Hno].
    + rewrite decide_False by (intros [_ ->]; done).
      rewrite decide_True; [done|]. split; [done|by right].
    + destruct (decide (x' = x /\ y' = y)) as [[-> ->]|Hne].
      * rewrite decide_True by (split; [done|by left]). by rewrite Hvalue.
      * rewrite decide_False; [done|].
        intros [-> [->|Hin]%elem_of_cons]; [by apply Hne|by apply Hno].
Qed.

Lemma recolor_columns (colors : gmap string QColor) (xs : list nat)
    (image : QImage) :
  has_bands colors -> NoDup xs ->
  exists image',
    for_range xs
      (fun x image0 =>
         for_range (seq 0 (height image0)) (fun y => recolor_pixel colors x y)
           image0) image = Some image' /\
    width image' = width image /\ height image' = height image /\
    forall x' y',
      pixel image' x' y' =
        if decide (x' ∈ xs /\ y' < height image)
        then band_rgb colors (pixel image x' y')
        else pixel image x' y'.
Proof.
  intros Hbands. revert image.
  induction xs as [|x xs IH]; intros image Hnodup; simpl.
  - exists image. by repeat split.
  - apply NoDup_cons in Hnodup as [Hx Hnodup].
    destruct (recolor_column colors x (seq 0 (height image)) image Hbands
                (NoDup_seq _ _)) as (image1 & -> & Hw1 & Hh1 & Hpix1).
    destruct (IH image1 Hnodup) as (image' & -> & Hw & Hh & Hpix).
    exists image'. repeat split; try congruence. intros x' y'.
    rewrite Hpix, Hh1, !Hpix1.
    destruct (decide (x' ∈ xs /\ y' < height image)) as [[Hin Hlt]|Hno].
    + rewrite decide_False by (intros [-> _]; done).
      rewrite decide_True; [done|]. split; [by right|done].
    + destruct (decide (x' = x /\ y' ∈ seq 0 (height image)))
        as [[-> Hseq]|Hne].
      * apply elem_of_seq in Hseq.
        rewrite decide_True; [done|]. split; [by left|lia].
      * rewrite decide_False; [done|].
        intros [[->|Hin]%elem_of_cons Hlt]; [|by apply Hno].
        apply Hne. split; [done|]. apply elem_of_seq. lia.
Qed.

(** What the two loops leave. *)
Lemma recolor_pixels (colors : gmap string QColor) (image : QImage) :
  has_bands colors ->
  exists image',
    recolor colors image = Some image' /\
    width image' = width image /\ height image' = height image /\
    forall x y,
      pixel image' x y =
        if decide (x < width image /\ y < height image)
        then band_rgb colors (pixel image x y)
        else pixel image x y.
Proof.
  intros Hbands. unfold recolor.
  destruct (recolor_columns colors (seq 0 (width image)) image Hbands
              (NoDup_seq _ _)) as (image' & -> & Hw & Hh & Hpix).
  exists image'. repeat split; try done. intros x y. rewrite Hpix.
  destruct (decide (x < width image /\ y < height image)) as [[Hx Hy]|Hno].
  - rewrite decide_True; [done|]. split; [apply elem_of_seq; lia|done].
  - rewrite decide_False; [done|]. intros [Hx%elem_of_seq Hy]. apply Hno. lia.
Qed.

Lemma band_rgb_color (colors : gmap string QColor) (value : Z) :
  has_bands colors ->
  exists color,
    colors !! band (qGray value) = Some color /\
    band_rgb colors value = rgb color.
Proof.
  intros Hbands. unfold band_rgb.
  destruct (has_bands_band colors (qGray value) Hbands) as [v Hv].
  unfold color_rgb in *.
  destruct (colors !! band (qGray value)) as [color|]; [|done].
  exists color. by injection Hv as <-.
Qed.

Lemma band_cases (gray : Z) :
  band gray = "white" \/ band gray = "grey" \/ band gray = "black".
Proof. unfold band. repeat case_decide; auto. Qed.

(** X11: with a texture loaded that is not null (it has a width and a
    height) and colours under the three keys, [update_preview] raises
    nothing, keeps the texture and the colours, and hands on an image of the
    size of the texture in which every pixel is the opaque pixel of the
    colour stored under the band of grey of the texture's pixel at that
    place.  With a null texture it returns at line 37 and leaves the widget
    as it is. *)
Theorem preview_is_banded (self : TexturePreviewWidget) (pixmap : QImage) :
  original_pixmap self = Some pixmap ->
  has_bands (colors self) ->
  (0 < width pixmap -> 0 < height pixmap ->
   exists image,
     update_preview self =
       Some (mkWidget (Some pixmap) (colors self) (Some image)) /\
     width image = width pixmap /\ height image = height pixmap /\
     forall x y, x < width pixmap -> y < height pixmap ->
       exists color,
         colors self !! band (qGray (pixel pixmap x y)) = Some color /\
         pixel image x y = rgb color) /\
  (width pixmap = 0 \/ height pixmap = 0 -> update_preview self = Some self).
Proof.
  intros Horig Hbands. unfold update_preview. rewrite Horig. split.
  - intros Hwidth Hheight.
    unfold isNull. rewrite bool_decide_false by lia.
    destruct (recolor_pixels (colors self) pixmap Hbands)
      as (image & -> & Hw & Hh & Hpix).
    exists image. repeat split; try done. intros x y Hx Hy.
    rewrite Hpix, decide_True by done. by apply band_rgb_color.
  - intros Hnull. unfold isNull. by rewrite bool_decide_true.
Qed.

(** X12: when each of the three colours lies in the band of grey of its own
    key, as the colours of a new widget do, recolouring a recoloured image
    changes nothing. *)
Theorem recolor_twice (colors : gmap string QColor) (image image1 : QImage) :
  has_bands colors ->
  in_own_bands colors ->
  recolor colors image = Some image1 ->
  exists image2, recolor colors image1 = Some image2 /\ same_image image2 image1.
Proof.
  intros Hbands Hown Hfirst.
  destruct (recolor_pixels colors image Hbands) as (i1 & Hi1 & Hw1 & Hh1 & Hpix1).
  rewrite Hfirst in Hi1. injection Hi1 as <-.
  destruct (recolor_pixels colors image1 Hbands) as (image2 & -> & Hw & Hh & Hpix).
  exists image2. split; [done|]. repeat split; try done. intros x y Hx Hy.
  rewrite Hpix, decide_True by (split; congruence).
  rewrite Hpix1, decide_True by (split; congruence).
  destruct (band_rgb_color colors (pixel image x y) Hbands) as (color & Hc & ->).
  unfold band_rgb, color_rgb.
  rewrite (Hown _ color (band_cases _) Hc). by rewrite Hc.
Qed.

Lemma qGray_monotone (p p' : Z) :
  (qRed p <= qRed p')%Z -> (qGreen p <= qGreen p')%Z ->
  (qBlue p <= qBlue p')%Z -> (qGray p <= qGray p')%Z.
Proof.
  intros Hr Hg Hb. unfold qGray. apply Z.div_le_mono; lia.
Qed.

(** X13: a pixel that is at least as bright in each of its three colour
    bytes never falls into a darker band: where the darker pixel is white
    the brighter is white, and where the brighter is black the darker is
    black. *)
Theorem brighter_pixel_not_darker (p p' : Z) :
  (qRed p <= qRed p')%Z -> (qGreen p <= qGreen p')%Z ->
  (qBlue p <= qBlue p')%Z ->
  (band (qGray p) = "white" -> band (qGray p') = "white") /\
  (band (qGray p') = "black" -> band (qGray p) = "black").
Proof.
  intros Hr Hg Hb. pose proof (qGray_monotone p p' Hr Hg Hb) as Hgray.
  unfold band. split; repeat case_decide; try done; lia.
Qed.

(** X14: with a texture loaded that is not null and colours under the three
    keys, [update_color] raises nothing and keeps the texture; in the image
    it hands on, the pixels whose band of grey is the given key show the new
    colour and all other pixels show the colour they showed before.  A key
    other than the three changes no pixel.  With a null texture the colour
    is stored and the widget is otherwise left as it is. *)
Theorem update_color_changes_one_band (self : TexturePreviewWidget)
    (pixmap : QImage) (area : string) (color : QColor) :
  original_pixmap self = Some pixmap ->
  has_bands (colors self) ->
  (0 < width pixmap -> 0 < height pixmap ->
   exists image,
     update_color area color self =
       Some (mkWidget (Some pixmap) (<[area := color]> (colors self))
               (Some image)) /\
     forall x y, x < width pixmap -> y < height pixmap ->
       pixel image x y =
         if decide (band (qGray (pixel pixmap x y)) = area)
         then rgb color
         else band_rgb (colors self) (pixel pixmap x y)) /\
  (width pixmap = 0 \/ height pixmap = 0 ->
   update_color area color self =
     Some (mkWidget (Some pixmap) (<[area := color]> (colors self))
             (preview self))).
Proof.
  intros Horig (Hw & Hg & Hb). unfold update_color, update_preview. simpl.
  rewrite Horig. split.
  - intros Hwidth Hheight. unfold isNull. rewrite bool_decide_false by lia.
    assert (has_bands (<[area := color]> (colors self))) as Hbands.
    { unfold has_bands. rewrite !lookup_insert_is_Some. repeat split;
        (destruct (decide (area = "white")); destruct (decide (area = "grey"));
         destruct (decide (area = "black")); auto). }
    destruct (recolor_pixels (<[area := color]> (colors self)) pixmap Hbands)
      as (image & -> & _ & _ & Hpix).
    exists image. split; [done|]. intros x y Hx Hy.
    rewrite Hpix, decide_True by done. unfold band_rgb, color_rgb.
    case_decide as Harea.
    + by rewrite Harea, lookup_insert_eq.
    + by rewrite lookup_insert_ne.
  - intros Hnull. unfold isNull. by rewrite bool_decide_true.
Qed.
End Preview.

(** ** The added theorems at small inputs *)

Section AtSmallInputs.
Import Camo.

Lemma flag_depends_on_own_face_witness :
  0 ∈ [0] <-> 0 ∈ [0].
Proof.
  apply (flag_depends_on_own_face
           triangle_points (triangle_points ++ [pt 5 5 5])
           [[0; 1; 2]] [[0; 1; 2]; [3; 3; 3]]
           [vec (-1) (-1) (-1)] [vec (-1) (-1) (-1); vec 1 1 1]
           [0] [0] 0).
  - vm_compute. reflexivity.
  - vm_compute. reflexivity.
  - reflexivity.
  - reflexivity.
  - intros vertex_list v Hvl Hin. injection Hvl as <-.
    repeat (apply elem_of_cons in Hin as [->|Hin]; [reflexivity|]).
    by apply elem_of_nil in Hin.
Defined.

Lemma reversing_flagged_leaves_none_witness :
  classify triangle_points [[0; 1; 2]; [0; 1; 2]]
    (reverse_normals (fun i => bool_decide (i ∈ [0])) triangle_normals)
  = inr [].
Proof.
  apply (reversing_flagged_leaves_none triangle_points
           [[0; 1; 2]; [0; 1; 2]] triangle_normals [0]).
  vm_compute. reflexivity.
Defined.

Lemma default_colors_has_bands : has_bands default_colors.
Proof. repeat split; by eexists. Defined.

Lemma default_colors_in_own_bands : in_own_bands default_colors.
Proof.
  intros key color [-> | [-> | ->]] Hc; vm_compute in Hc; injection Hc as <-;
    vm_compute; reflexivity.
Defined.

Lemma preview_is_banded_witness :
  exists image,
    update_preview sample_widget =
      Some (mkWidget (Some sample_texture) default_colors (Some image)) /\
    width image = 3 /\ height image = 1 /\
    forall x y, x < 3 -> y < 1 ->
      exists color,
        default_colors !! band (qGray (pixel sample_texture x y)) = Some color /\
        pixel image x y = rgb color.
Proof.
  apply (preview_is_banded sample_widget sample_texture).
  - reflexivity.
  - exact default_colors_has_bands.
  - simpl. lia.
  - simpl. lia.
Defined.

Lemma recolor_twice_witness :
  exists image1 image2,
    recolor default_colors sample_texture = Some image1 /\
    recolor default_colors image1 = Some image2 /\ same_image image2 image1.
Proof.
  destruct (recolor default_colors sample_texture) as [image1|] eqn:Hfirst;
    [|by vm_compute in Hfirst].
  destruct (recolor_twice default_colors sample_texture image1
              default_colors_has_bands default_colors_in_own_bands Hfirst)
    as (image2 & Hsecond & Hsame).
  by exists image1, image2.
Defined.

Lemma brighter_pixel_not_darker_witness :
  (band (qGray 0xff101010) = "white" -> band (qGray 0xffc0c0c0) = "white") /\
  (band (qGray 0xffc0c0c0) = "black" -> band (qGray 0xff101010) = "black").
Proof.
  apply (brighter_pixel_not_darker 0xff101010 0xffc0c0c0); by vm_compute.
Defined.

Lemma update_color_changes_one_band_witness :
  exists image,
    update_color "grey" (mkColor 200 30 30) sample_widget =
      Some (mkWidget (Some sample_texture)
              (<["grey" := mkColor 200 30 30]> default_colors) (Some image)) /\
    forall x y, x < 3 -> y < 1 ->
      pixel image x y =
        if decide (band (qGray (pixel sample_texture x y)) = "grey")
        then rgb (mkColor 200 30 30)
        else band_rgb default_colors (pixel sample_texture x y).
Proof.
  apply (update_color_changes_one_band sample_widget sample_texture "grey"
           (mkColor 200 30 30)).
  - reflexivity.
  - exact default_colors_has_bands.
  - simpl. lia.
  - simpl. lia.
Defined.
End AtSmallInputs.
